(** * koishi-plugin-forward: the message-relay core

    A shallow embedding of [src/index.ts] (the revision with [ForwardTarget],
    [parseTarget] and [RelayEntry]) and the properties of its address codec,
    target resolver, correlation store, dispatch pipeline and reply
    interceptor.

    Conventions of the embedding:
    - a JavaScript string is a [string]; [s.length] is [String.length s]
      (lengths are only compared among prefixes of one string);
    - [undefined] / [null] results are [None];
    - the truthiness test of a string ([if (p)], [quote.id ? .. : ..]) is
      [truthy]: the empty string is falsy;
    - the plain object [relayMap] used as a dictionary is a [gmap] of
      its own properties together with its prototype: a read goes
      through the prototype chain, and an assignment to [__proto__]
      replaces the prototype;
    - host services (bot registry, send API, member directory, database,
      timers, the [next] continuation) are fields of an environment
      record, or steps on the world; an [async] function is a computation
      in a monad of state and exceptions, [await] being sequencing;
    - time is a clock in milliseconds; a timer fires when the clock
      reaches its deadline, which is the delay the runtime's timer takes
      (a delay above [2^31 - 1] ms is taken as 1 ms). *)

From stdpp Require Import gmap strings list fin_maps.
From Stdlib Require Import Ascii NArith Lia.

Local Open Scope list_scope.
Local Open Scope stdpp_scope.

(* ===================================================================== *)
(** * Part I. The model                                                   *)
(* ===================================================================== *)

(** ** Strings as the code uses them *)

(** [if (s)] on a string. *)
Definition truthy (s : string) : bool :=
  match s with
  | EmptyString => false
  | String _ _ => true
  end.

(** [s.startsWith(p)]. *)
Fixpoint startsWith (s p : string) {struct p} : bool :=
  match p with
  | EmptyString => true
  | String c p' =>
      match s with
      | EmptyString => false
      | String d s' => if Ascii.eqb c d then startsWith s' p' else false
      end
  end.

(** [s.slice(n)] for [0 <= n]. *)
Fixpoint slice_from (n : nat) (s : string) : string :=
  match n with
  | O => s
  | S n' =>
      match s with
      | EmptyString => EmptyString
      | String _ s' => slice_from n' s'
      end
  end.

(** [s.slice(0, n)] for [0 <= n]. *)
Fixpoint slice_to (n : nat) (s : string) : string :=
  match n with
  | O => EmptyString
  | S n' =>
      match s with
      | EmptyString => EmptyString
      | String c s' => String c (slice_to n' s')
      end
  end.

(** [s.indexOf(c)] for a one-character needle; [None] is the code's [-1]. *)
Fixpoint indexOf (c : ascii) (s : string) : option nat :=
  match s with
  | EmptyString => None
  | String d s' => if Ascii.eqb d c then Some O else S <$> indexOf c s'
  end.

(** The delimiter of an address. *)
Definition colon : ascii := ":"%char.

(** "the string contains the delimiter". *)
Fixpoint has_colon (s : string) : bool :=
  match s with
  | EmptyString => false
  | String d s' => if Ascii.eqb d colon then true else has_colon s'
  end.

(** ** Data model *)

Module Bot.
(** A connected bot of the registry [ctx.bots]. *)
Record t := mk { platform : string; selfId : string }.
(** [bot.sid], the key of [ctx.bots[...]]. *)
Definition sid (b : t) : string := platform b +:+ ":" +:+ selfId b.
End Bot.

Module ForwardTarget.
Record t := mk {
  platform : string;
  channelId : string;
  selfId : string;
  guildId : option string
}.
End ForwardTarget.

Module Parsed.
(** The result type of [parseTarget]: [{ platform, channelId }]. *)
Record t := mk { platform : string; channelId : string }.
End Parsed.

(** ** Address codec *)

(** [[...new Set(xs)]]: the first occurrence of each value, in order. *)
Fixpoint dedup (l : list string) : list string :=
  match l with
  | [] => []
  | x :: r => x :: filter (λ y, y ≠ x) (dedup r)
  end.

(** One insertion step of [.sort((a, b) => b.length - a.length)]: [x] goes
    in front of the first element that is not longer than it. *)
Fixpoint insert_by_length (x : string) (l : list string) : list string :=
  match l with
  | [] => [x]
  | y :: r =>
      if (String.length y <=? String.length x)%nat
      then x :: y :: r
      else y :: insert_by_length x r
  end.

(** The sort of [parseTarget], by descending length; stable, as
    [Array.prototype.sort] is. *)
Fixpoint sort_by_length_desc (l : list string) : list string :=
  match l with
  | [] => []
  | x :: r => insert_by_length x (sort_by_length_desc r)
  end.

(** The [platforms] of [parseTarget]. *)
Definition platforms (bots : list Bot.t) : list string :=
  sort_by_length_desc (dedup (map Bot.platform bots)).

(** The [for (const p of platforms)] loop of [parseTarget]. *)
Fixpoint match_platform (target : string) (ps : list string) : option Parsed.t :=
  match ps with
  | [] => None
  | p :: rest =>
      if truthy p && startsWith target (p +:+ ":")
      then Some (Parsed.mk p (slice_from (String.length p + 1) target))
      else match_platform target rest
  end.

Definition parseTarget (bots : list Bot.t) (target : string) : option Parsed.t :=
  match match_platform target (platforms bots) with
  | Some r => Some r
  | None =>
      match indexOf colon target with
      | None => None
      | Some idx =>
          Some (Parsed.mk (slice_to idx target) (slice_from (idx + 1) target))
      end
  end.

Definition formatTarget (t : ForwardTarget.t) : string :=
  ForwardTarget.platform t +:+ ":" +:+ ForwardTarget.channelId t.

(** [{ ...parsed, selfId, guildId }]. *)
Definition with_self (p : Parsed.t) (selfId : string) (guildId : option string)
  : ForwardTarget.t :=
  ForwardTarget.mk (Parsed.platform p) (Parsed.channelId p) selfId guildId.

(** [findBot]: the [selfId] of the first connected bot of the platform. *)
Fixpoint findBot (bots : list Bot.t) (platform : string) : option string :=
  match bots with
  | [] => None
  | b :: rest =>
      if decide (Bot.platform b = platform) then Some (Bot.selfId b)
      else findBot rest platform
  end.

(** ** Specification vocabulary for the codec *)

(** What it means for the loop's test to accept [q] on [target]. *)
Definition accepts (target q : string) : bool :=
  truthy q && startsWith target (q +:+ ":").

(** The list is by descending length: every element is at least as long
    as all those after it. *)
Inductive by_length_desc : list string → Prop :=
  | bld_nil : by_length_desc []
  | bld_cons x l :
      Forall (λ y, String.length y ≤ String.length x) l →
      by_length_desc l → by_length_desc (x :: l).

(** ** Message content

    [session.stripped.content] is markup; [segment.select] and
    [segment.transform] work on its parsed form, a forest of elements.
    The embedding keeps the content in that form: the empty string is the
    empty forest, and plain text is a [Text] element. *)

Inductive Element :=
  | Text (content : string)
  | Elem (type : string) (attrs : list (string * string)) (children : list Element).

(** [attrs[key]]. *)
Fixpoint attr (key : string) (attrs : list (string * string)) : option string :=
  match attrs with
  | [] => None
  | (k, v) :: rest => if decide (k = key) then Some v else attr key rest
  end.

(** [segment.select(content, 'at')]: the [at] elements, at any depth. *)
Fixpoint select_at (e : Element) : list Element :=
  match e with
  | Text _ => []
  | Elem type attrs children =>
      (if decide (type = "at") then [e] else [])
      ++ (fix go (l : list Element) : list Element :=
            match l with
            | [] => []
            | c :: l' => select_at c ++ go l'
            end) children
  end.

Definition select_at_all (content : list Element) : list Element :=
  flat_map select_at content.

(** ['@' + dict[id]]: string concatenation turns a missing entry
    ([undefined]) into the text [undefined]. *)
Definition at_text (dict : gmap string string) (id : string) : string :=
  "@" +:+ default "undefined" (dict !! id).

(** [segment.transform(content, { at(attrs) { if (!attrs.id) return true;
    return '@' + dict[attrs.id] } })] on one element: an element with no
    rule, and an [at] for which the rule returns [true], is kept with its
    children transformed; the string the rule returns takes the place of
    the element as text. *)
Fixpoint transform_elem (dict : gmap string string) (e : Element) : list Element :=
  match e with
  | Text s => [Text s]
  | Elem type attrs children =>
      let kept :=
        [Elem type attrs
           ((fix go (l : list Element) : list Element :=
               match l with
               | [] => []
               | c :: l' => transform_elem dict c ++ go l'
               end) children)] in
      if decide (type = "at") then
        match attr "id" attrs with
        | Some id => if truthy id then [Text (at_text dict id)] else kept
        | None => kept
        end
      else kept
  end.

Definition transform (dict : gmap string string) (content : list Element)
  : list Element :=
  flat_map (transform_elem dict) content.

(** ** Sessions, entries, rules *)

(** [session.channelId]: a scalar on most platforms, a structured object
    with a nested [id] on some, possibly missing. *)
Inductive ChannelId :=
  | CidUndefined
  | CidString (s : string)
  | CidObject (id : option string).

Global Instance ChannelId_eq_dec : EqDecision ChannelId.
Proof. solve_decision. Defined.

Global Instance ChannelId_countable : Countable ChannelId.
Proof.
  refine (inj_countable'
    (λ c, match c with
          | CidUndefined => inl ()
          | CidString s => inr (inl s)
          | CidObject o => inr (inr o)
          end)
    (λ x, match x with
          | inl _ => CidUndefined
          | inr (inl s) => CidString s
          | inr (inr o) => CidObject o
          end) _).
  by intros [].
Defined.

(** [if (channelId)]. *)
Definition cid_truthy (c : ChannelId) : bool :=
  match c with
  | CidUndefined => false
  | CidString s => truthy s
  | CidObject _ => true
  end.

Module RelayEntry.
Record t := mk {
  platform : string;
  channelId : ChannelId;
  selfId : string;
  guildId : option string
}.
End RelayEntry.

(** A [ForwardTarget] passed where a [RelayEntry] is expected (the two
    interfaces have the same fields). *)
Definition entry_of_target (t : ForwardTarget.t) : RelayEntry.t :=
  RelayEntry.mk (ForwardTarget.platform t) (CidString (ForwardTarget.channelId t))
                (ForwardTarget.selfId t) (ForwardTarget.guildId t).

Module Rule.
Record t := mk {
  source : string;
  target : string;
  selfId : string;
  guildId : option string
}.
End Rule.

Module Session.
Record t := mk {
  platform : string;
  channelId : ChannelId;
  selfId : string;
  guildId : option string;
  (** [session.cid], the host's rendering of the source channel *)
  cid : string;
  (** [session.author.name] *)
  author_name : string;
  (** [session.stripped.content] *)
  content : list Element;
  (** [session.quote.id], absent when there is no quotation *)
  quote_id : option string;
  (** [session.channel.forward] when [session.channel] exists and the
      field is an array *)
  channel_forward : option (list ForwardTarget.t)
}.
End Session.

Definition getChannelId (session : Session.t) : ChannelId :=
  match Session.channelId session with
  | CidObject (Some id) => if truthy id then CidString id else CidObject (Some id)
  | c => c
  end.

(** ** Effects: outcomes, the world, the environment *)

Definition Error := string.

Inductive Outcome (A : Type) :=
  | Ok (a : A)
  | Throw (e : Error).
Arguments Ok {A} a.
Arguments Throw {A} e.

Inductive LogEntry :=
  | WarnBotNotFound (platform selfId : string)
  | WarnError (e : Error)
  | WarnFetchFailed (e : Error)
  | DebugMiddleware (cid : string) (targets : list ForwardTarget.t).

(** One completed [bot.sendMessage(channelId, content, guildId)]. *)
Module Delivery.
Record t := mk {
  bot : Bot.t;
  channelId : ChannelId;
  content : list Element;
  guildId : option string
}.
End Delivery.

(** The key of a channel row: [(platform, id)]. *)
Definition RowKey : Type := string * ChannelId.

(** Everything the plugin reads and writes: the own properties of the
    correlation map and its pending timers (deadline and key, in the
    order they were scheduled), the clock in milliseconds, the channel
    table's [forward] column ([None] is a row whose field is null), the
    traces of sends, log lines and calls of the continuation, and the
    prototype of the correlation map: [relayMap] is a plain object, whose
    prototype is [Object.prototype] ([None]) until an assignment to the
    key [__proto__] makes an entry its prototype. *)
Record World := mkWorld {
  relayMap : gmap string RelayEntry.t;
  timers : list (N * string);
  now : N;
  db : gmap RowKey (option (list ForwardTarget.t));
  sent : list Delivery.t;
  log : list LogEntry;
  nextCalls : nat;
  proto : option RelayEntry.t
}.

(** The host and the configuration. The fallible services answer with an
    [Outcome]; a database fault is an error for the row it is asked. *)
Record Env := mkEnv {
  bots : list Bot.t;
  mode_database : bool;
  rules : option (list Rule.t);
  replyTimeout : option N;
  getGuildMemberMap : string → Outcome (gmap string string);
  sendMessage : Bot.t → ChannelId → list Element → option string → Outcome (list string);
  db_read_fault : RowKey → option Error;
  db_write_fault : RowKey → option Error;
  next : Outcome string
}.

(** The monad of the handlers: state and exceptions. *)
Definition M (A : Type) : Type := World → Outcome A * World.

Definition ret {A} (a : A) : M A := λ w, (Ok a, w).

Definition bind {A B} (m : M A) (f : A → M B) : M B :=
  λ w, match m w with
       | (Ok a, w') => f a w'
       | (Throw e, w') => (Throw e, w')
       end.

Definition throw {A} (e : Error) : M A := λ w, (Throw e, w).

(** [try { m } catch (e) { h e }]. *)
Definition try_catch {A} (m : M A) (h : Error → M A) : M A :=
  λ w, match m w with
       | (Ok a, w') => (Ok a, w')
       | (Throw e, w') => h e w'
       end.

(** [await] of a host service. *)
Definition await {A} (o : Outcome A) : M A := λ w, (o, w).

Definition modify (f : World → World) : M unit := λ w, (Ok tt, f w).

Definition gets {A} (f : World → A) : M A := λ w, (Ok (f w), w).

Notation "x <- m ;; k" := (bind m (λ x, k))
  (at level 100, m at next level, right associativity).
Notation "m ;; k" := (bind m (λ _, k))
  (at level 100, right associativity).

(** [for (const x of xs) body(x)]. *)
Fixpoint for_each {A} (body : A → M unit) (xs : list A) : M unit :=
  match xs with
  | [] => ret tt
  | x :: rest => body x ;; for_each body rest
  end.

Definition add_log (l : LogEntry) (w : World) : World :=
  mkWorld (relayMap w) (timers w) (now w) (db w) (sent w) (log w ++ [l]) (nextCalls w) (proto w).

Definition add_sent (d : Delivery.t) (w : World) : World :=
  mkWorld (relayMap w) (timers w) (now w) (db w) (sent w ++ [d]) (log w) (nextCalls w) (proto w).

Definition logger (l : LogEntry) : M unit := modify (add_log l).

(** ** Relay correlation store *)

(** [Time.hour], in milliseconds. *)
Definition Time_hour : N := 3600000.

(** [config.replyTimeout || Time.hour]: an unset or zero timeout is one
    hour. *)
Definition ttl (env : Env) : N :=
  match replyTimeout env with
  | Some n => if (n =? 0)%N then Time_hour else n
  | None => Time_hour
  end.

(** The entry [sendRelay] records for the ids of a send: the normalized
    source channel of the session. *)
Definition origin (session : Session.t) : RelayEntry.t :=
  RelayEntry.mk (Session.platform session) (getChannelId session)
                (Session.selfId session) (Session.guildId session).

(** The largest delay of the host's timer, [2^31 - 1] ms. *)
Definition TIMEOUT_MAX : N := 2147483647.

(** The delay [ctx.setTimeout(callback, ms)] waits: it hands [ms] to the
    runtime's [setTimeout], which replaces a delay below 1 or above
    [TIMEOUT_MAX] by 1. *)
Definition timer_delay (ms : N) : N :=
  if ((ms <? 1) || (TIMEOUT_MAX <? ms))%N then 1%N else ms.

(** The assignment [relayMap[id] = entry]. The key [__proto__], when it
    is no own property, is the accessor of [Object.prototype]: the
    assignment makes [entry] the prototype of the map and adds no
    property. *)
Definition sets_proto (id : string) (m : gmap string RelayEntry.t) : bool :=
  bool_decide (id = "__proto__") && bool_decide (m !! id = None).

Definition own_put (entry : RelayEntry.t) (id : string) (m : gmap string RelayEntry.t)
  : gmap string RelayEntry.t :=
  if sets_proto id m then m else <[id := entry]> m.

Definition proto_put (entry : RelayEntry.t) (id : string) (m : gmap string RelayEntry.t)
    (p : option RelayEntry.t) : option RelayEntry.t :=
  if sets_proto id m then Some entry else p.

(** The body of [for (const id of ids)]: [relayMap[id] = {...}] and
    [ctx.setTimeout(() => delete relayMap[id], ttl)]. *)
Definition put (env : Env) (session : Session.t) (id : string) (w : World) : World :=
  mkWorld (own_put (origin session) id (relayMap w))
          (timers w ++ [((now w + timer_delay (ttl env))%N, id)])
          (now w) (db w) (sent w) (log w) (nextCalls w)
          (proto_put (origin session) id (relayMap w) (proto w)).

(** The names of the properties of [Object.prototype], [__proto__]
    apart; their values are functions. *)
Definition Object_prototype_keys : list string :=
  [ "constructor"; "hasOwnProperty"; "isPrototypeOf"; "propertyIsEnumerable";
    "toLocaleString"; "toString"; "valueOf";
    "__defineGetter__"; "__defineSetter__"; "__lookupGetter__"; "__lookupSetter__" ].

(** What [sendRelay] sees of a value that is no entry (a function,
    [Object.prototype], a string): [const { platform, channelId, selfId,
    guildId } = entry] gives [undefined] four times, and [platform] and
    [selfId] are used in a template literal and as [%s] arguments of the
    logger only, where [undefined] reads as the text [undefined]. *)
Definition undefined_entry : RelayEntry.t :=
  RelayEntry.mk "undefined" CidUndefined "undefined" None.

(** [if (entry[id])] for an entry that is the prototype of the map: its
    four fields are the only properties it adds. *)
Definition field_truthy (entry : RelayEntry.t) (id : string) : bool :=
  if decide (id = "platform") then truthy (RelayEntry.platform entry)
  else if decide (id = "channelId") then cid_truthy (RelayEntry.channelId entry)
  else if decide (id = "selfId") then truthy (RelayEntry.selfId entry)
  else if decide (id = "guildId") then
    match RelayEntry.guildId entry with
    | Some g => truthy g
    | None => false
    end
  else false.

(** [relayMap[id]] when it is truthy, as [sendRelay] will see it: the own
    property; or else, for [__proto__], the prototype; or else a truthy
    property of the prototype chain (a field of the entry that is the
    prototype, a function of [Object.prototype]). *)
Definition get (id : string) (w : World) : option RelayEntry.t :=
  match relayMap w !! id with
  | Some entry => Some entry
  | None =>
      if decide (id = "__proto__") then Some (default undefined_entry (proto w))
      else if match proto w with
              | Some entry => field_truthy entry id
              | None => false
              end
      then Some undefined_entry
      else if bool_decide (id ∈ Object_prototype_keys) then Some undefined_entry
      else None
  end.

(** A timer is due at time [t] when its deadline has been reached. *)
Definition due (t : N) (tm : N * string) : bool := (tm.1 <=? t)%N.

(** The clock advances by [dt] milliseconds: the callbacks of the timers
    that are due run ([delete relayMap[id]]), in the order they were
    scheduled, and leave the timer list. *)
Definition elapse (dt : N) (w : World) : World :=
  let t := (now w + dt)%N in
  mkWorld (foldl (λ m tm, delete tm.2 m) (relayMap w) (filter (λ tm, due t tm = true) (timers w)))
          (filter (λ tm, due t tm = false) (timers w))
          t (db w) (sent w) (log w) (nextCalls w) (proto w).

(** ** Dispatch pipeline *)

(** [ctx.bots[sid]]: the first connected bot with that [sid]. *)
Fixpoint bot_by_sid (bots : list Bot.t) (sid : string) : option Bot.t :=
  match bots with
  | [] => None
  | b :: rest => if decide (Bot.sid b = sid) then Some b else bot_by_sid rest sid
  end.

(** The content to send: mentions rewritten when there are any and the
    session has a guild. *)
Definition rewrite_mentions (env : Env) (session : Session.t) : M (list Element) :=
  let content := Session.content session in
  match select_at_all content, Session.guildId session with
  | _ :: _, Some guildId =>
      if truthy guildId then
        dict <- await (getGuildMemberMap env guildId) ;;
        ret (transform dict content)
      else ret content
  | _, _ => ret content
  end.

(** [`${author.name}: ${content}`]. *)
Definition with_author (session : Session.t) (content : list Element) : list Element :=
  Text (Session.author_name session +:+ ": ") :: content.

(** The block under [try] in [sendRelay]. *)
Definition sendRelay_body (env : Env) (session : Session.t) (entry : RelayEntry.t) : M unit :=
  let platform := RelayEntry.platform entry in
  let channelId := RelayEntry.channelId entry in
  let selfId := RelayEntry.selfId entry in
  let guildId := RelayEntry.guildId entry in
  match bot_by_sid (bots env) (platform +:+ ":" +:+ selfId) with
  | None => logger (WarnBotNotFound platform selfId)
  | Some bot =>
      content <- rewrite_mentions env session ;;
      let content := with_author session content in
      ids <- await (sendMessage env bot channelId content guildId) ;;
      modify (add_sent (Delivery.mk bot channelId content guildId)) ;;
      for_each (λ id, modify (put env session id)) ids
  end.

Definition sendRelay (env : Env) (session : Session.t) (entry : RelayEntry.t) : M unit :=
  match Session.content session with
  | [] => ret tt
  | _ :: _ =>
      try_catch (sendRelay_body env session entry)
                (λ error, logger (WarnError error))
  end.

(** ** Target resolver *)

(** [ctx.database.get('channel', { platform, id }, ['forward'])] and the
    [const [channel] =] that takes the first row: the row's [forward]
    field, or no row. *)
Definition database_get (env : Env) (key : RowKey)
  : M (option (option (list ForwardTarget.t))) :=
  match db_read_fault env key with
  | Some e => throw e
  | None => gets (λ w, db w !! key)
  end.

(** [ctx.database.upsert('channel', [{ platform, id, forward }],
    ['platform', 'id'])]. *)
Definition database_upsert (env : Env) (key : RowKey) (forward : list ForwardTarget.t)
  : M unit :=
  match db_write_fault env key with
  | Some e => throw e
  | None =>
      modify (λ w, mkWorld (relayMap w) (timers w) (now w)
                           (<[key := Some forward]> (db w))
                           (sent w) (log w) (nextCalls w) (proto w))
  end.

(** The rules of config mode that apply to the session, decoded. *)
Definition rule_targets (env : Env) (session : Session.t) : list ForwardTarget.t :=
  omap (λ rule,
          match parseTarget (bots env) (Rule.target rule) with
          | None => None
          | Some parsed => Some (with_self parsed (Rule.selfId rule) (Rule.guildId rule))
          end)
       (filter (λ rule, Rule.source rule = Session.cid session)
               (default [] (rules env))).

(** [getTargets]. The inner [option] is the [return] inside [try]: [None]
    falls through to the final [return []]. *)
Definition getTargets (env : Env) (session : Session.t) : M (list ForwardTarget.t) :=
  if mode_database env then
    match Session.channel_forward session with
    | Some forward => ret forward
    | None =>
        let channelId := getChannelId session in
        returned <-
          (if cid_truthy channelId then
             try_catch
               (channel <- database_get env (Session.platform session, channelId) ;;
                match channel with
                | Some forward => ret (Some (default [] forward))
                | None => ret None
                end)
               (λ error, logger (WarnFetchFailed error) ;; ret None)
           else ret None) ;;
        match returned with
        | Some forward => ret forward
        | None => ret []
        end
    end
  else ret (rule_targets env session).

(** ** Reply interceptor and middleware *)

(** [quote.id ? relayMap[quote.id] : undefined], when it is truthy. *)
Definition quoted_entry (session : Session.t) (w : World) : option RelayEntry.t :=
  match Session.quote_id session with
  | Some id => if truthy id then get id w else None
  | None => None
  end.

(** What the middleware resolves to: the value of [sendRelay] (nothing)
    on the reply path, the continuation's result on the forward path. *)
Inductive Handled :=
  | Undefined
  | FromNext (result : string).

(** [next()]. *)
Definition call_next (env : Env) : M string :=
  modify (λ w, mkWorld (relayMap w) (timers w) (now w) (db w) (sent w) (log w)
                       (S (nextCalls w)) (proto w)) ;;
  await (next env).

(** The relay tasks of one message: one [sendRelay] per target. The tasks
    and the continuation of [Promise.all([next(), ...tasks])] run here one
    after the other, tasks first, in the order they are started. No task
    reads the correlation map, and all entries written for one message are
    the same [origin], so the final world does not depend on how the host
    interleaves them. *)
Definition fan_out (env : Env) (session : Session.t) (targets : list ForwardTarget.t)
  : M unit :=
  for_each (λ target, sendRelay env session (entry_of_target target)) targets.

Definition middleware (env : Env) (session : Session.t) : M Handled :=
  data <- gets (quoted_entry session) ;;
  match data with
  | Some data => sendRelay env session data ;; ret Undefined
  | None =>
      targets <- getTargets env session ;;
      logger (DebugMiddleware (Session.cid session) targets) ;;
      fan_out env session targets ;;
      result <- call_next env ;;
      ret (FromNext result)
  end.

(** ** Commands (database mode) *)

Inductive Reply :=
  | TextNoBot
  | TextUnchanged (arg : string)
  | TextUpdated (arg : option string)
  | TextEmpty
  | TextList (lines : list string).

(** [t.platform === parsed.platform && t.channelId === parsed.channelId]. *)
Definition same_channel (parsed : Parsed.t) (t : ForwardTarget.t) : bool :=
  bool_decide (ForwardTarget.platform t = Parsed.platform parsed)
  && bool_decide (ForwardTarget.channelId t = Parsed.channelId parsed).

(** [targets.findIndex(pred)]; [None] is the code's [-1]. *)
Fixpoint findIndex {A} (pred : A → bool) (l : list A) : option nat :=
  match l with
  | [] => None
  | x :: rest => if pred x then Some O else S <$> findIndex pred rest
  end.

(** The write the commands share: skipped when the session has no usable
    channel id. *)
Definition save_targets (env : Env) (session : Session.t) (targets : list ForwardTarget.t)
  : M unit :=
  let channelId := getChannelId session in
  if cid_truthy channelId
  then database_upsert env (Session.platform session, channelId) targets
  else ret tt.

Definition cmd_add (env : Env) (session : Session.t) (id : string) : M Reply :=
  match parseTarget (bots env) id with
  | None => ret TextNoBot
  | Some parsed =>
      match findBot (bots env) (Parsed.platform parsed) with
      | None => ret TextNoBot
      | Some selfId =>
          if truthy selfId then
            targets <- getTargets env session ;;
            if existsb (same_channel parsed) targets
            then ret (TextUnchanged (formatTarget (with_self parsed selfId None)))
            else
              let entry := with_self parsed selfId None in
              save_targets env session (targets ++ [entry]) ;;
              ret (TextUpdated (Some (formatTarget entry)))
          else ret TextNoBot
      end
  end.

Definition cmd_remove (env : Env) (session : Session.t) (id : string) : M Reply :=
  match parseTarget (bots env) id with
  | None => ret (TextUnchanged id)
  | Some parsed =>
      targets <- getTargets env session ;;
      match findIndex (same_channel parsed) targets with
      | Some index =>
          save_targets env session (delete index targets) ;;
          ret (TextUpdated (Some id))
      | None => ret (TextUnchanged id)
      end
  end.

Definition cmd_clear (env : Env) (session : Session.t) : M Reply :=
  save_targets env session [] ;;
  ret (TextUpdated None).

Definition cmd_list (env : Env) (session : Session.t) : M Reply :=
  targets <- getTargets env session ;;
  match targets with
  | [] => ret TextEmpty
  | _ :: _ => ret (TextList (map formatTarget targets))
  end.

(** ** Specification vocabulary for the runtime *)

(** The world before anything happened. *)
Definition blank : World := mkWorld ∅ [] 0 ∅ [] [] 0 None.

(** What one relay does, read off a run from the blank world: the sends
    it completes, the lines it logs and the message ids it registers. *)
Definition relay_deliveries (env : Env) (session : Session.t) (entry : RelayEntry.t)
  : list Delivery.t :=
  sent (sendRelay env session entry blank).2.

Definition relay_log (env : Env) (session : Session.t) (entry : RelayEntry.t)
  : list LogEntry :=
  log (sendRelay env session entry blank).2.

Definition relay_ids (env : Env) (session : Session.t) (entry : RelayEntry.t)
  : list string :=
  (timers (sendRelay env session entry blank).2).*2.

(** Registering the ids of one send, in order. *)
Definition puts (env : Env) (session : Session.t) (ids : list string) (w : World) : World :=
  foldl (λ w id, put env session id w) w ids.

Definition add_logs (ls : list LogEntry) (w : World) : World :=
  mkWorld (relayMap w) (timers w) (now w) (db w) (sent w) (log w ++ ls) (nextCalls w) (proto w).

Definition add_sents (ds : list Delivery.t) (w : World) : World :=
  mkWorld (relayMap w) (timers w) (now w) (db w) (sent w ++ ds) (log w) (nextCalls w) (proto w).

(** The events the correlation store sees: a registration (by some relay
    of some session) and the passing of time. *)
Inductive StoreEvent :=
  | Put (session : Session.t) (id : string)
  | Elapse (dt : N).

Definition store_step (env : Env) (w : World) (ev : StoreEvent) : World :=
  match ev with
  | Put session id => put env session id w
  | Elapse dt => elapse dt w
  end.

Definition run_store (env : Env) (evs : list StoreEvent) (w : World) : World :=
  foldl (store_step env) w evs.

(** The event registers the key. *)
Definition puts_key (k : string) (ev : StoreEvent) : Prop :=
  match ev with
  | Put _ id => id = k
  | Elapse _ => False
  end.

(** The keys that the map object treats in a way of its own: the names
    it inherits from [Object.prototype], [__proto__], and the names of
    the fields of an entry, which it inherits once an entry is its
    prototype. Every other key is found in the map exactly when it was
    registered and has not expired. *)
Definition reserved_keys : list string :=
  "__proto__" :: "platform" :: "channelId" :: "selfId" :: "guildId"
  :: Object_prototype_keys.

(** The relay to [entry] fails, leaving [warning] in the log: no bot is
    connected for it, or a step of the block under [try] raises. *)
Inductive relay_fails (env : Env) (session : Session.t) (entry : RelayEntry.t)
  : LogEntry → Prop :=
  | fails_no_bot :
      bot_by_sid (bots env)
        (RelayEntry.platform entry +:+ ":" +:+ RelayEntry.selfId entry) = None →
      relay_fails env session entry
        (WarnBotNotFound (RelayEntry.platform entry) (RelayEntry.selfId entry))
  | fails_raise e w :
      (sendRelay_body env session entry w).1 = Throw e →
      relay_fails env session entry (WarnError e).

(** The deliveries, log lines and registered ids of a fan-out, target by
    target. *)
Definition fan_deliveries (env : Env) (session : Session.t) (targets : list ForwardTarget.t)
  : list Delivery.t :=
  flat_map (λ t, relay_deliveries env session (entry_of_target t)) targets.

Definition fan_log (env : Env) (session : Session.t) (targets : list ForwardTarget.t)
  : list LogEntry :=
  flat_map (λ t, relay_log env session (entry_of_target t)) targets.

Definition fan_ids (env : Env) (session : Session.t) (targets : list ForwardTarget.t)
  : list string :=
  flat_map (λ t, relay_ids env session (entry_of_target t)) targets.

(** The state of one correlation entry, for the key [k], the entry [e]
    and the deadline [D] of its timer: live (present, its timers all at
    [D], one of them pending, the clock before [D]) or expired (absent,
    no timer left, the clock at or past [D]). *)
Definition entry_live (k : string) (e : RelayEntry.t) (D : N) (w : World) : Prop :=
  get k w = Some e
  ∧ (D, k) ∈ timers w
  ∧ (∀ d, (d, k) ∈ timers w → d = D)
  ∧ (now w < D)%N.

Definition entry_expired (k : string) (D : N) (w : World) : Prop :=
  get k w = None
  ∧ (∀ d, (d, k) ∉ timers w)
  ∧ (D ≤ now w)%N.

(** ** Scenarios

    Config mode, two bots, three rules for the source channel
    [onebot:100]; the send to the channel [bad] raises. *)

Definition demo_send (bot : Bot.t) (channelId : ChannelId) (content : list Element)
    (guildId : option string) : Outcome (list string) :=
  match channelId with
  | CidString "bad" => Throw "send failed"
  | CidString "200" => Ok ["m200"]
  | CidString "300" => Ok ["m300"]
  | _ => Ok ["m"]
  end.

Definition demo_rules : list Rule.t :=
  [ Rule.mk "onebot:100" "discord:200" "B1" None;
    Rule.mk "onebot:100" "discord:bad" "B1" None;
    Rule.mk "onebot:100" "discord:300" "B1" None ].

Definition demo_env : Env :=
  mkEnv [Bot.mk "onebot" "B0"; Bot.mk "discord" "B1"]
        false (Some demo_rules) (Some 1000%N)
        (λ _, Ok {[ "7" := "alice" ]})
        demo_send (λ _, None) (λ _, None) (Ok "handled").

(** A message in [onebot:100]. *)
Definition demo_session : Session.t :=
  Session.mk "onebot" (CidString "100") "B0" (Some "g1") "onebot:100" "bob"
             [Text "hi"] None None.

(** A message in [discord:200] that quotes the message [quoted]. *)
Definition demo_reply (quoted : string) : Session.t :=
  Session.mk "discord" (CidString "200") "B1" (Some "g2") "discord:200" "carol"
             [Text "yo"] (Some quoted) None.

Definition target_200 : ForwardTarget.t := ForwardTarget.mk "discord" "200" "B1" None.
Definition target_bad : ForwardTarget.t := ForwardTarget.mk "discord" "bad" "B1" None.
Definition target_300 : ForwardTarget.t := ForwardTarget.mk "discord" "300" "B1" None.

(** A message in the guild [g1] that mentions the members [7] (known to
    the directory of [demo_env]) and [9] (unknown). *)
Definition demo_mentions : Session.t :=
  Session.mk "onebot" (CidString "100") "B0" (Some "g1") "onebot:100" "bob"
             [Text "hello "; Elem "at" [("id", "7")] []; Elem "at" [("id", "9")] []]
             None None.

(** Database mode with a channel table that cannot be read. *)
Definition demo_db_env : Env :=
  mkEnv [Bot.mk "onebot" "B0"; Bot.mk "discord" "B1"]
        true None None
        (λ _, Ok ∅) demo_send (λ _, Some "db down") (λ _, None) (Ok "handled").

(** Two source channels forwarded to two chats of a platform whose
    message ids are counted per chat: both sends return the id [42]. *)
Definition shared_id_env : Env :=
  mkEnv [Bot.mk "onebot" "B0"; Bot.mk "telegram" "T1"]
        false
        (Some [ Rule.mk "onebot:100" "telegram:200" "T1" None;
                Rule.mk "onebot:101" "telegram:300" "T1" None ])
        (Some 1000%N)
        (λ _, Ok ∅) (λ _ _ _ _, Ok ["42"]) (λ _, None) (λ _, None) (Ok "handled").

(** A message in [onebot:101]. *)
Definition other_session : Session.t :=
  Session.mk "onebot" (CidString "101") "B0" (Some "g1") "onebot:101" "dave"
             [Text "hey"] None None.

(** ** Proof automation *)

(** Unfold the steps of the monad. *)
Ltac run :=
  unfold bind, ret, await, modify, gets, logger, throw, try_catch, call_next in *;
  simpl in *.

(** ** The address split of the earlier revision

    The first revision of [sendRelay] reads a target address with
    [const platform = rule.target.split(':', 1)[0]] and
    [const channelId = rule.target.slice(platform.length + 1)]. *)

(** [s.split(':', 1)[0]]: the part before the first colon, the whole
    string when there is none. *)
Fixpoint before_colon (s : string) : string :=
  match s with
  | EmptyString => EmptyString
  | String c rest => if Ascii.eqb c colon then EmptyString else String c (before_colon rest)
  end.

Definition split_address (target : string) : Parsed.t :=
  let platform := before_colon target in
  Parsed.mk platform (slice_from (String.length platform + 1) target).

(** ** Histories of the plugin

    What happens to a running plugin: a message comes in and the
    middleware handles it, or time passes. *)
Inductive Step :=
  | Incoming (session : Session.t)
  | Wait (dt : N).

Definition plugin_step (env : Env) (w : World) (st : Step) : World :=
  match st with
  | Incoming session => (middleware env session w).2
  | Wait dt => elapse dt w
  end.

Definition run_plugin (env : Env) (steps : list Step) (w : World) : World :=
  foldl (plugin_step env) w steps.

(** Every pending timer is due in the future, within the timeout. *)
Definition timers_bounded (env : Env) (w : World) : Prop :=
  ∀ d k, (d, k) ∈ timers w → (now w < d ∧ d ≤ now w + ttl env)%N.

(** Every entry of the correlation map has a pending timer. *)
Definition keys_timed (w : World) : Prop :=
  ∀ k, is_Some (relayMap w !! k) → ∃ d, (d, k) ∈ timers w.

(** Database mode, nothing failing. *)
Definition db_env : Env :=
  mkEnv [Bot.mk "onebot" "B0"; Bot.mk "discord" "B1"]
        true None None
        (λ _, Ok ∅) demo_send (λ _, None) (λ _, None) (Ok "handled").

(** Database mode, the channel table cannot be written. *)
Definition db_readonly_env : Env :=
  mkEnv [Bot.mk "onebot" "B0"; Bot.mk "discord" "B1"]
        true None None
        (λ _, Ok ∅) demo_send (λ _, None) (λ _, Some "read-only") (Ok "handled").

(** A message of a session with no channel id. *)
Definition demo_no_channel : Session.t :=
  Session.mk "onebot" CidUndefined "B0" None "onebot:" "bob" [Text "hi"] None None.

(** A message in [onebot:100] that comes with its channel row attached,
    the row holding the three targets of the scenario. *)
Definition demo_attached : Session.t :=
  Session.mk "onebot" (CidString "100") "B0" (Some "g1") "onebot:100" "bob"
             [Text "hi"] None (Some [target_200; target_bad; target_300]).

(** ** Vocabulary for the channel table *)

(** The row of the session's channel. *)
Definition row_key (session : Session.t) : RowKey :=
  (Session.platform session, getChannelId session).

(** What a read of the row yields as targets: the stored list, and the
    empty list for a missing row or a null field. *)
Definition stored (key : RowKey) (w : World) : list ForwardTarget.t :=
  match db w !! key with
  | Some (Some forward) => forward
  | _ => []
  end.

(** The world with [targets] written to the row. *)
Definition with_row (key : RowKey) (targets : list ForwardTarget.t) (w : World) : World :=
  mkWorld (relayMap w) (timers w) (now w) (<[key := Some targets]> (db w))
          (sent w) (log w) (nextCalls w) (proto w).

(** A session that reads and writes the channel table itself: database
    mode, no channel row attached to the session, a usable channel id,
    and no fault on its row. *)
Definition table_session (env : Env) (session : Session.t) : Prop :=
  mode_database env = true
  ∧ Session.channel_forward session = None
  ∧ cid_truthy (getChannelId session) = true
  ∧ db_read_fault env (row_key session) = None
  ∧ db_write_fault env (row_key session) = None.

(** The continuation fails. *)
Definition failing_next_env : Env :=
  mkEnv [Bot.mk "onebot" "B0"; Bot.mk "discord" "B1"]
        false (Some demo_rules) (Some 1000%N)
        (λ _, Ok ∅) demo_send (λ _, None) (λ _, None) (Throw "next failed").

(** The member directory fails. *)
Definition no_directory_env : Env :=
  mkEnv [Bot.mk "onebot" "B0"; Bot.mk "discord" "B1"]
        false (Some demo_rules) (Some 1000%N)
        (λ _, Throw "no directory") demo_send (λ _, None) (λ _, None) (Ok "handled").

(** A message with no content. *)
Definition demo_empty : Session.t :=
  Session.mk "onebot" (CidString "100") "B0" (Some "g1") "onebot:100" "bob"
             [] None None.

(** The session sees the row of its channel as the table has it: in
    database mode, either the host attached the row to the session and
    its targets are the stored ones, or no row is attached and the
    session can read the row itself. *)
Definition sees_row (env : Env) (session : Session.t) (w : World) : Prop :=
  mode_database env = true
  ∧ (Session.channel_forward session = Some (stored (row_key session) w)
     ∨ (Session.channel_forward session = None
        ∧ cid_truthy (getChannelId session) = true
        ∧ db_read_fault env (row_key session) = None)).

(** A message in [onebot:100] with the row of the channel attached, the
    row holding [targets]. *)
Definition demo_with_row (targets : list ForwardTarget.t) : Session.t :=
  Session.mk "onebot" (CidString "100") "B0" (Some "g1") "onebot:100" "bob"
             [Text "hi"] None (Some targets).

(** A send that returns the same id twice. *)
Definition twice_env : Env :=
  mkEnv [Bot.mk "onebot" "B0"; Bot.mk "discord" "B1"]
        false (Some demo_rules) (Some 1000%N)
        (λ _, Ok ∅) (λ _ _ _ _, Ok ["m"; "m"]) (λ _, None) (λ _, None) (Ok "handled").

(** A timeout of [2^31] ms, which the timer does not take. *)
Definition long_timeout_env : Env :=
  mkEnv [Bot.mk "onebot" "B0"; Bot.mk "discord" "B1"]
        false (Some demo_rules) (Some 2147483648%N)
        (λ _, Ok ∅) demo_send (λ _, None) (λ _, None) (Ok "handled").
(* ===================================================================== *)
(** * Part II. Properties                                                 *)
(* ===================================================================== *)

(** ** String lemmas *)

Lemma append_cons c s t : String c s +:+ t = String c (s +:+ t).
Proof. reflexivity. Qed.

Lemma append_nil_l s : "" +:+ s = s.
Proof. reflexivity. Qed.

Lemma startsWith_append p r : startsWith (p +:+ r) p = true.
Proof.
  induction p as [|c p IH]; [reflexivity|].
  rewrite append_cons. simpl. by rewrite Ascii.eqb_refl.
Qed.

Lemma startsWith_split s p :
  startsWith s p = true → s = p +:+ slice_from (String.length p) s.
Proof.
  revert s; induction p as [|c p IH]; intros s H; [reflexivity|].
  destruct s as [|d s]; simpl in H; [discriminate|].
  destruct (Ascii.eqb c d) eqn:E; [|discriminate].
  apply Ascii.eqb_eq in E as ->.
  rewrite append_cons. simpl. f_equal. by apply IH.
Qed.

Lemma slice_from_append p r : slice_from (String.length p) (p +:+ r) = r.
Proof. induction p as [|c p IH]; [reflexivity|]. rewrite append_cons. exact IH. Qed.

Lemma length_append s t :
  String.length (s +:+ t) = (String.length s + String.length t)%nat.
Proof.
  induction s as [|c s IH]; [reflexivity|].
  rewrite append_cons. simpl. by rewrite IH.
Qed.

Lemma append_assoc s t u : (s +:+ t) +:+ u = s +:+ t +:+ u.
Proof.
  induction s as [|c s IH]; [reflexivity|].
  rewrite !append_cons. by rewrite IH.
Qed.

Lemma indexOf_split s idx :
  indexOf colon s = Some idx →
  slice_to idx s +:+ ":" +:+ slice_from (idx + 1) s = s.
Proof.
  revert idx; induction s as [|d s IH]; intros idx H; simpl in H; [discriminate|].
  destruct (Ascii.eqb d colon) eqn:E.
  - apply Ascii.eqb_eq in E as ->. by inversion H.
  - destruct (indexOf colon s) as [j|] eqn:Hj; simpl in H; [|discriminate].
    inversion H; subst idx. simpl. rewrite append_cons. f_equal. by apply IH.
Qed.

Lemma indexOf_has_colon s : indexOf colon s = None ↔ has_colon s = false.
Proof.
  induction s as [|d s IH]; simpl; [done|].
  destruct (Ascii.eqb d colon); [split; discriminate|].
  rewrite <- IH. destruct (indexOf colon s); simpl; split; congruence.
Qed.

Lemma has_colon_append p c : has_colon (p +:+ ":" +:+ c) = true.
Proof.
  induction p as [|d p IH]; [reflexivity|].
  rewrite append_cons. simpl. by destruct (Ascii.eqb d colon).
Qed.

Lemma indexOf_no_colon_prefix p c :
  has_colon p = false → indexOf colon (p +:+ ":" +:+ c) = Some (String.length p).
Proof.
  induction p as [|d p IH]; intros H; [reflexivity|].
  rewrite append_cons. simpl in *. destruct (Ascii.eqb d colon); [discriminate|].
  by rewrite (IH H).
Qed.

Lemma slice_to_append p r : slice_to (String.length p) (p +:+ r) = p.
Proof.
  induction p as [|d p IH]; [done|]. rewrite append_cons. simpl. by rewrite IH.
Qed.

(** ** The platform loop *)

Lemma match_platform_Some target ps r :
  match_platform target ps = Some r →
  Parsed.platform r ∈ ps
  ∧ accepts target (Parsed.platform r) = true
  ∧ Parsed.platform r +:+ ":" +:+ Parsed.channelId r = target.
Proof.
  induction ps as [|p rest IH]; simpl; [discriminate|].
  fold (accepts target p). destruct (accepts target p) eqn:E.
  - intros [= <-]. simpl. split_and!; [left|done|].
    apply andb_true_iff in E as [_ E].
    apply startsWith_split in E. rewrite length_append in E. simpl in E.
    rewrite <- append_assoc. done.
  - intros (? & ? & ?)%IH. split_and!; [by right|done..].
Qed.

Lemma match_platform_None target ps :
  match_platform target ps = None ↔ ∀ q, q ∈ ps → accepts target q = false.
Proof.
  induction ps as [|p rest IH]; simpl.
  - split; [|done]. intros _ q Hq. by apply elem_of_nil in Hq.
  - fold (accepts target p). destruct (accepts target p) eqn:E.
    + split; [discriminate|]. intros H. specialize (H p (list_elem_of_here _ _)). congruence.
    + rewrite IH. split.
      * intros H q [->|Hq]%elem_of_cons; auto.
      * intros H q Hq. apply H. by right.
Qed.

Lemma insert_by_length_elem x y l :
  y ∈ insert_by_length x l ↔ y = x ∨ y ∈ l.
Proof.
  induction l as [|z l IH]; simpl.
  - rewrite list_elem_of_singleton. split; [by left|]. by intros [|?%elem_of_nil].
  - destruct (String.length z <=? String.length x)%nat.
    + by rewrite elem_of_cons.
    + rewrite !elem_of_cons, IH. naive_solver.
Qed.

Lemma insert_by_length_sorted x l :
  by_length_desc l → by_length_desc (insert_by_length x l).
Proof.
  induction 1 as [|z l Hz Hl IH]; simpl.
  - constructor; [constructor|constructor].
  - destruct (String.length z <=? String.length x)%nat eqn:E.
    + apply Nat.leb_le in E. constructor; [|by constructor].
      constructor; [done|]. eapply Forall_impl; [exact Hz|]. simpl; lia.
    + apply Nat.leb_gt in E. constructor; [|done].
      apply Forall_forall. intros y [->|Hy]%insert_by_length_elem; [lia|].
      by eapply Forall_forall in Hz.
Qed.

Lemma sort_by_length_desc_sorted l : by_length_desc (sort_by_length_desc l).
Proof.
  induction l; simpl; [constructor|]. by apply insert_by_length_sorted.
Qed.

Lemma sort_by_length_desc_elem y l : y ∈ sort_by_length_desc l ↔ y ∈ l.
Proof.
  induction l as [|x l IH]; simpl; [done|].
  by rewrite insert_by_length_elem, elem_of_cons, IH.
Qed.

Lemma dedup_elem y l : y ∈ dedup l ↔ y ∈ l.
Proof.
  induction l as [|x l IH]; simpl; [done|].
  rewrite !elem_of_cons, list_elem_of_filter, IH.
  destruct (decide (y = x)); naive_solver.
Qed.

Lemma platforms_elem bots q : q ∈ platforms bots ↔ q ∈ map Bot.platform bots.
Proof. unfold platforms. by rewrite sort_by_length_desc_elem, dedup_elem. Qed.

Lemma platforms_sorted bots : by_length_desc (platforms bots).
Proof. apply sort_by_length_desc_sorted. Qed.

(** In a list by descending length, the loop returns a longest accepted
    element. *)
Lemma match_platform_longest target ps r q :
  by_length_desc ps →
  match_platform target ps = Some r →
  q ∈ ps → accepts target q = true →
  String.length q ≤ String.length (Parsed.platform r).
Proof.
  induction 1 as [|p rest Hp Hrest IH]; simpl; [discriminate|].
  fold (accepts target p). destruct (accepts target p) eqn:E.
  - intros [= <-] [->|Hq]%elem_of_cons _; simpl; [lia|].
    by eapply Forall_forall in Hp.
  - intros Hr [->|Hq]%elem_of_cons Hacc; [congruence|]. by apply IH.
Qed.

(** Two prefixes of the same length of one string are the same string. *)
Lemma append_same_length_inj p q r s :
  p +:+ r = q +:+ s → String.length p = String.length q → p = q ∧ r = s.
Proof.
  revert q; induction p as [|a p IH]; intros [|b q]; simpl; try done.
  rewrite !append_cons. intros [= -> H] [= Hl]. destruct (IH _ H Hl) as [-> ->]. done.
Qed.

(** ** Address codec: the claims *)

Lemma parseTarget_Some bots s r :
  parseTarget bots s = Some r →
  Parsed.platform r +:+ ":" +:+ Parsed.channelId r = s.
Proof.
  unfold parseTarget.
  destruct (match_platform s (platforms bots)) as [r'|] eqn:E.
  - intros [= <-]. by apply match_platform_Some in E as (_ & _ & ?).
  - destruct (indexOf colon s) as [idx|] eqn:Hi; [|discriminate].
    intros [= <-]. simpl. by apply indexOf_split.
Qed.

Lemma accepts_has_colon s q : accepts s q = true → has_colon s = true.
Proof.
  intros [_ H]%andb_true_iff. apply startsWith_split in H.
  rewrite H, append_assoc. apply has_colon_append.
Qed.

Lemma parseTarget_None bots s : parseTarget bots s = None ↔ has_colon s = false.
Proof.
  unfold parseTarget.
  destruct (match_platform s (platforms bots)) as [r|] eqn:E.
  - apply match_platform_Some in E as (_ & E & _).
    apply accepts_has_colon in E. rewrite E. split; discriminate.
  - rewrite <- indexOf_has_colon. by destruct (indexOf colon s).
Qed.

(** With no bot connected for the platform, the address is split at its
    first colon. *)
Lemma parseTarget_fallback bots p c :
  has_colon p = false →
  (∀ q, q ∈ map Bot.platform bots → accepts (p +:+ ":" +:+ c) q = false) →
  parseTarget bots (p +:+ ":" +:+ c) = Some (Parsed.mk p c).
Proof.
  intros Hp Hnone. unfold parseTarget.
  destruct (match_platform _ (platforms bots)) as [r|] eqn:E.
  - apply match_platform_Some in E as (Hin & Hacc & _).
    apply platforms_elem in Hin. by rewrite (Hnone _ Hin) in Hacc.
  - rewrite (indexOf_no_colon_prefix p c Hp).
    rewrite slice_to_append. rewrite <- append_assoc.
    replace (String.length p + 1)%nat with (String.length (p +:+ ":"))
      by (rewrite length_append; reflexivity).
    by rewrite slice_from_append.
Qed.

(** C6. Formatting what [parseTarget] returns for an address
    [platform:channelId] gives the address back, whatever bots are
    connected and whatever [selfId] and [guildId] complete the target. *)
Theorem format_parse_roundtrip bots platform channelId selfId guildId :
  let s := platform +:+ ":" +:+ channelId in
  ∃ r, parseTarget bots s = Some r
       ∧ formatTarget (with_self r selfId guildId) = s.
Proof.
  simpl. destruct (parseTarget bots (platform +:+ ":" +:+ channelId)) as [r|] eqn:E.
  - exists r. split; [done|]. by apply parseTarget_Some in E.
  - apply parseTarget_None in E. by rewrite has_colon_append in E.
Qed.

(** C7, as the code has it. [parseTarget] returns absence exactly for the
    strings with no [":"]; a string that begins with [":"] is not
    rejected: it parses, and formats back to itself. *)
Theorem parse_absent_iff_no_delimiter bots s :
  (parseTarget bots s = None ↔ has_colon s = false)
  ∧ ∀ rest, ∃ r, parseTarget bots (":" +:+ rest) = Some r
                 ∧ Parsed.platform r +:+ ":" +:+ Parsed.channelId r = ":" +:+ rest.
Proof.
  split; [apply parseTarget_None|].
  intros rest. destruct (parseTarget bots (":" +:+ rest)) as [r|] eqn:E.
  - exists r. split; [done|]. by apply parseTarget_Some in E.
  - apply parseTarget_None in E. discriminate.
Qed.

(** C7, as the claim words it, fails: with no bot connected, the address
    [":abc"] (empty platform part) parses to a target with the empty
    platform. *)
Lemma parse_empty_platform_not_absent :
  parseTarget [] ":abc" = Some (Parsed.mk "" "abc")
  ∧ parseTarget [] ":abc" ≠ None.
Proof. split; [reflexivity|discriminate]. Qed.

(** C2, as the code has it. For an address [p:c] with [p] the platform of
    a connected bot, [parseTarget] returns a target whose platform is
    connected, which formats back to the address, and whose platform is a
    longest connected name [q] with [q:] a prefix of the address; the
    result is [{platform: p, channelId: c}] when no connected name longer
    than [p] is such a prefix ([c] may contain [":"]). *)
Theorem parse_connected_longest bots p c :
  p ∈ map Bot.platform bots →
  ∃ r, parseTarget bots (p +:+ ":" +:+ c) = Some r
       ∧ Parsed.platform r ∈ map Bot.platform bots
       ∧ Parsed.platform r +:+ ":" +:+ Parsed.channelId r = p +:+ ":" +:+ c
       ∧ (∀ q, q ∈ map Bot.platform bots →
               startsWith (p +:+ ":" +:+ c) (q +:+ ":") = true →
               (String.length q ≤ String.length (Parsed.platform r))%nat)
       ∧ ((∀ q, q ∈ map Bot.platform bots →
                startsWith (p +:+ ":" +:+ c) (q +:+ ":") = true →
                (String.length q ≤ String.length p)%nat) →
          r = Parsed.mk p c).
Proof.
  intros Hp. set (s := p +:+ ":" +:+ c).
  assert (Hps : startsWith s (p +:+ ":") = true).
  { unfold s. rewrite <- append_assoc. apply startsWith_append. }
  unfold parseTarget.
  destruct (match_platform s (platforms bots)) as [r|] eqn:E.
  - pose proof (match_platform_Some _ _ _ E) as (Hin & Hacc & Hfmt).
    apply platforms_elem in Hin.
    assert (Hlong : ∀ q, q ∈ map Bot.platform bots →
              startsWith s (q +:+ ":") = true →
              (String.length q ≤ String.length (Parsed.platform r))%nat).
    { intros q Hq Hqs. destruct q as [|a q]; [simpl; lia|].
      eapply match_platform_longest; [apply platforms_sorted|exact E| |].
      - by apply platforms_elem.
      - unfold accepts. by rewrite Hqs. }
    exists r. split_and!; try done.
    intros Hmax.
    assert (Hlen : String.length (Parsed.platform r) = String.length p).
    { apply Nat.le_antisymm; [|by apply Hlong].
      apply Hmax; [done|]. by apply andb_true_iff in Hacc as [_ ?]. }
    destruct r as [q d]; simpl in *.
    destruct (append_same_length_inj q p (":" +:+ d) (":" +:+ c) Hfmt Hlen) as [-> Hd].
    change (String ":" d = String ":" c) in Hd. by inversion Hd.
  - (* no connected name is accepted: [p] itself must be the empty name *)
    assert (p = "") as ->.
    { destruct p as [|a p]; [done|].
      eapply match_platform_None in E; [|by apply platforms_elem].
      unfold accepts in E. by rewrite Hps in E. }
    simpl. exists (Parsed.mk "" c). split_and!; try done.
    intros q Hq Hqs. destruct q as [|a q]; [simpl; lia|].
    eapply match_platform_None in E; [|by apply platforms_elem].
    unfold accepts in E. fold s in E. by rewrite Hqs in E.
Qed.

(** A witness: platforms [onebot] and [discord] connected; the channel
    part of [discord:12:34] keeps its colon. *)
Lemma parse_connected_longest_witness :
  ∃ r, parseTarget [Bot.mk "onebot" "B0"; Bot.mk "discord" "B1"] ("discord" +:+ ":" +:+ "12:34") = Some r
       ∧ r = Parsed.mk "discord" "12:34".
Proof.
  destruct (parse_connected_longest
              [Bot.mk "onebot" "B0"; Bot.mk "discord" "B1"] "discord" "12:34")
    as (r & Hr & _ & _ & _ & Heq).
  - simpl. apply elem_of_cons; right. apply list_elem_of_here.
  - exists r. split; [exact Hr|]. apply Heq.
    intros q Hq Hs. simpl in Hq.
    apply elem_of_cons in Hq as [->|Hq]; [discriminate Hs|].
    apply elem_of_cons in Hq as [->|Hq]; [simpl; lia|].
    by apply elem_of_nil in Hq.
Defined.

(** C2, as the claim words it, fails when one connected platform name
    extends another across a colon: with [sandbox] and [sandbox:dev] both
    connected, the address ["sandbox" + ":" + "dev:42"] does not parse to
    platform [sandbox] and channel [dev:42]. *)
Lemma parse_shorter_platform_loses :
  let bots := [Bot.mk "sandbox" "B0"; Bot.mk "sandbox:dev" "B1"] in
  "sandbox" ∈ map Bot.platform bots
  ∧ parseTarget bots ("sandbox" +:+ ":" +:+ "dev:42") = Some (Parsed.mk "sandbox:dev" "42")
  ∧ parseTarget bots ("sandbox" +:+ ":" +:+ "dev:42") ≠ Some (Parsed.mk "sandbox" "dev:42").
Proof.
  simpl. split_and!; [apply list_elem_of_here|reflexivity|discriminate].
Qed.

(** ** The monad *)

Lemma for_each_app {A} (body : A → M unit) l1 l2 w w1 :
  for_each body l1 w = (Ok tt, w1) →
  for_each body (l1 ++ l2) w = for_each body l2 w1.
Proof.
  revert w; induction l1 as [|x l1 IH]; intros w; simpl.
  - by intros [= ->].
  - unfold bind. destruct (body x w) as [[[]|e] w0]; [|discriminate].
    apply IH.
Qed.

(** ** Registrations *)

Lemma for_each_put env session ids w :
  for_each (λ id, modify (put env session id)) ids w = (Ok tt, puts env session ids w).
Proof.
  revert w; induction ids as [|id ids IH]; intros w; [reflexivity|].
  simpl. unfold bind, modify. apply IH.
Qed.

Lemma puts_now env session ids w : now (puts env session ids w) = now w.
Proof. revert w; induction ids as [|id ids IH]; intros w; simpl; [done|]. by rewrite IH. Qed.

Lemma puts_sent env session ids w : sent (puts env session ids w) = sent w.
Proof. revert w; induction ids as [|id ids IH]; intros w; simpl; [done|]. by rewrite IH. Qed.

Lemma puts_log env session ids w : log (puts env session ids w) = log w.
Proof. revert w; induction ids as [|id ids IH]; intros w; simpl; [done|]. by rewrite IH. Qed.

Lemma puts_db env session ids w : db (puts env session ids w) = db w.
Proof. revert w; induction ids as [|id ids IH]; intros w; simpl; [done|]. by rewrite IH. Qed.

Lemma puts_nextCalls env session ids w :
  nextCalls (puts env session ids w) = nextCalls w.
Proof. revert w; induction ids as [|id ids IH]; intros w; simpl; [done|]. by rewrite IH. Qed.

Lemma puts_timers env session ids w :
  timers (puts env session ids w)
  = timers w ++ map (λ id, ((now w + timer_delay (ttl env))%N, id)) ids.
Proof.
  revert w; induction ids as [|id ids IH]; intros w; simpl.
  - by rewrite app_nil_r.
  - rewrite IH. simpl. by rewrite <- app_assoc.
Qed.

Lemma puts_relayMap env session ids w :
  relayMap (puts env session ids w)
  = foldl (λ m id, own_put (origin session) id m) (relayMap w) ids.
Proof. revert w; induction ids as [|id ids IH]; intros w; simpl; [done|]. by rewrite IH. Qed.

Lemma own_put_lookup_ne entry id (m : gmap string RelayEntry.t) k :
  k ≠ "__proto__" →
  own_put entry id m !! k = if decide (id = k) then Some entry else m !! k.
Proof.
  intros Hk. unfold own_put, sets_proto.
  destruct (bool_decide (id = "__proto__")) eqn:Hid; simpl.
  - apply bool_decide_eq_true in Hid as ->.
    rewrite (decide_False (P := "__proto__" = k)) by congruence.
    destruct (bool_decide (m !! "__proto__" = None)); [done|].
    by rewrite lookup_insert_ne by congruence.
  - destruct (decide (id = k)) as [->|Hne].
    + by rewrite lookup_insert_eq.
    + by rewrite lookup_insert_ne.
Qed.

Lemma own_put_is_Some entry id (m : gmap string RelayEntry.t) k :
  is_Some (own_put entry id m !! k) → k = id ∨ is_Some (m !! k).
Proof.
  unfold own_put. destruct (sets_proto id m); [by right|].
  destruct (decide (id = k)) as [->|Hne]; [by left|].
  rewrite lookup_insert_ne by done. by right.
Qed.

Lemma own_put_keeps entry id (m : gmap string RelayEntry.t) k :
  k ≠ id → own_put entry id m !! k = m !! k.
Proof.
  intros Hne. unfold own_put. destruct (sets_proto id m); [done|].
  by rewrite lookup_insert_ne.
Qed.

Lemma puts_lookup env session ids w k :
  k ≠ "__proto__" →
  relayMap (puts env session ids w) !! k
  = if decide (k ∈ ids) then Some (origin session) else relayMap w !! k.
Proof.
  intros Hk. rewrite puts_relayMap. generalize (relayMap w) as m.
  induction ids as [|id ids IH]; intros m; cbn [foldl].
  - rewrite decide_False; [done|]. apply not_elem_of_nil.
  - rewrite IH. destruct (decide (k ∈ ids)) as [Hin|Hnin].
    + rewrite decide_True; [done|]. by right.
    + rewrite (own_put_lookup_ne _ _ _ _ Hk). destruct (decide (id = k)) as [->|Hne].
      * rewrite decide_True; [done|]. by left.
      * rewrite decide_False; [done|]. intros [?|?]%elem_of_cons; congruence.
Qed.

Lemma puts_keeps env session ids w k :
  k ∉ ids → relayMap (puts env session ids w) !! k = relayMap w !! k.
Proof.
  rewrite puts_relayMap. generalize (relayMap w) as m.
  induction ids as [|id ids IH]; intros m Hk; cbn [foldl]; [done|].
  apply not_elem_of_cons in Hk as [Hne Hk].
  rewrite IH by done. by apply own_put_keeps.
Qed.

(** A world is determined by its fields. *)
Lemma World_eq w1 w2 :
  relayMap w1 = relayMap w2 → timers w1 = timers w2 → now w1 = now w2 →
  db w1 = db w2 → sent w1 = sent w2 → log w1 = log w2 →
  nextCalls w1 = nextCalls w2 → proto w1 = proto w2 → w1 = w2.
Proof. destruct w1, w2; simpl; by intros -> -> -> -> -> -> -> ->. Qed.

(** Registrations do not look at the sends and the log. *)
Lemma puts_add_sents env session ids ds w :
  puts env session ids (add_sents ds w) = add_sents ds (puts env session ids w).
Proof. revert w; induction ids as [|id ids IH]; intros w; [done|]. simpl. by rewrite <- IH. Qed.

Lemma puts_add_logs env session ids ls w :
  puts env session ids (add_logs ls w) = add_logs ls (puts env session ids w).
Proof. revert w; induction ids as [|id ids IH]; intros w; [done|]. simpl. by rewrite <- IH. Qed.

Lemma puts_app env session ids1 ids2 w :
  puts env session (ids1 ++ ids2) w = puts env session ids2 (puts env session ids1 w).
Proof. unfold puts. apply foldl_app. Qed.

Lemma add_sents_app ds1 ds2 w : add_sents ds2 (add_sents ds1 w) = add_sents (ds1 ++ ds2) w.
Proof. apply World_eq; simpl; try done. by rewrite app_assoc. Qed.

Lemma add_logs_app ls1 ls2 w : add_logs ls2 (add_logs ls1 w) = add_logs (ls1 ++ ls2) w.
Proof. apply World_eq; simpl; try done. by rewrite app_assoc. Qed.

Lemma add_logs_add_sents ls ds w : add_logs ls (add_sents ds w) = add_sents ds (add_logs ls w).
Proof. done. Qed.

(** The registrations of a send act on a world the way they act on the
    blank world, shifted by the world's clock. *)
Lemma puts_blank_ids env session ids w :
  timers w = [] → (timers (puts env session ids w)).*2 = ids.
Proof.
  intros Hw. rewrite puts_timers, Hw.
  rewrite app_nil_l. induction ids as [|id ids IH]; [done|].
  cbn. f_equal. exact IH.
Qed.

Lemma add_logs_nil w : add_logs [] w = w.
Proof. apply World_eq; simpl; try done. apply app_nil_r. Qed.

Lemma add_sents_nil w : add_sents [] w = w.
Proof. apply World_eq; simpl; try done. apply app_nil_r. Qed.

(** ** Reads of the correlation map *)

(** A key that is not reserved is read from the own properties alone. *)
Lemma get_ordinary k w : k ∉ reserved_keys → get k w = relayMap w !! k.
Proof.
  intros Hk. unfold get. destruct (relayMap w !! k) as [e|]; [done|].
  unfold reserved_keys in Hk. rewrite !not_elem_of_cons in Hk.
  destruct Hk as (H0 & H1 & H2 & H3 & H4 & Hobj).
  rewrite decide_False by done.
  assert (Hfield : ∀ e, field_truthy e k = false).
  { intros e. unfold field_truthy. by rewrite !decide_False. }
  destruct (proto w) as [e|]; [rewrite Hfield|];
    rewrite bool_decide_eq_false_2; try done;
    by rewrite !not_elem_of_cons.
Qed.

(** An own property is what a read returns. *)
Lemma get_own k w entry : relayMap w !! k = Some entry → get k w = Some entry.
Proof. unfold get. by intros ->. Qed.

Lemma reserved_proto k : k ∉ reserved_keys → k ≠ "__proto__".
Proof. unfold reserved_keys. rewrite not_elem_of_cons. by intros [? _]. Qed.

(** ** One relay *)

(** Mention rewriting reads the member directory and leaves the world as
    it is; its outcome does not depend on the world. *)
Lemma rewrite_mentions_run env session w :
  rewrite_mentions env session w = ((rewrite_mentions env session blank).1, w).
Proof.
  unfold rewrite_mentions.
  destruct (select_at_all (Session.content session)); [reflexivity|].
  destruct (Session.guildId session) as [g|]; [|reflexivity].
  destruct (truthy g); [|reflexivity].
  run. by destruct (getGuildMemberMap env g).
Qed.

(** The block under [try], run: the three ways it can end. *)
Lemma sendRelay_body_run env session entry w :
  sendRelay_body env session entry w
  = match bot_by_sid (bots env)
            (RelayEntry.platform entry +:+ ":" +:+ RelayEntry.selfId entry) with
    | None =>
        (Ok tt, add_log (WarnBotNotFound (RelayEntry.platform entry)
                                         (RelayEntry.selfId entry)) w)
    | Some bot =>
        match (rewrite_mentions env session blank).1 with
        | Throw e => (Throw e, w)
        | Ok content =>
            match sendMessage env bot (RelayEntry.channelId entry)
                    (with_author session content) (RelayEntry.guildId entry) with
            | Throw e => (Throw e, w)
            | Ok ids =>
                (Ok tt,
                 puts env session ids
                   (add_sent (Delivery.mk bot (RelayEntry.channelId entry)
                                (with_author session content)
                                (RelayEntry.guildId entry)) w))
            end
        end
    end.
Proof.
  unfold sendRelay_body.
  destruct (bot_by_sid (bots env) _) as [bot|]; [|reflexivity].
  unfold bind. rewrite (rewrite_mentions_run env session w).
  destruct (rewrite_mentions env session blank).1 as [content|e]; [|reflexivity].
  unfold await. destruct (sendMessage env bot _ _ _) as [ids|e]; [|reflexivity].
  unfold modify at 1. by rewrite for_each_put.
Qed.

(** The relay to one entry does to any world what it does to the blank
    one: it never raises, appends its log lines and its deliveries, and
    registers its ids at the world's clock. *)
Lemma sendRelay_effect env session entry w :
  sendRelay env session entry w
  = (Ok tt,
     puts env session (relay_ids env session entry)
       (add_sents (relay_deliveries env session entry)
          (add_logs (relay_log env session entry) w))).
Proof.
  unfold relay_ids, relay_deliveries, relay_log, sendRelay.
  destruct (Session.content session) as [|c0 cs] eqn:Hc.
  { simpl. by rewrite add_logs_nil, add_sents_nil. }
  unfold try_catch. rewrite !sendRelay_body_run.
  destruct (bot_by_sid (bots env) _) as [bot|].
  2:{ simpl. by rewrite add_sents_nil. }
  destruct (rewrite_mentions env session blank).1 as [content|e].
  2:{ simpl. by rewrite add_sents_nil. }
  destruct (sendMessage env bot _ _ _) as [ids|e].
  2:{ simpl. by rewrite add_sents_nil. }
  cbn [snd]. rewrite puts_sent, puts_log, puts_blank_ids by done. cbn [sent log add_sent blank].
  rewrite add_logs_nil. reflexivity.
Qed.

Lemma sendRelay_never_throws env session entry w :
  (sendRelay env session entry w).1 = Ok tt.
Proof. by rewrite sendRelay_effect. Qed.

(** Whether the body raises does not depend on the world. *)
Lemma sendRelay_body_throw env session entry w e :
  (sendRelay_body env session entry w).1 = Throw e →
  ∀ w', sendRelay_body env session entry w' = (Throw e, w').
Proof.
  intros H w'. rewrite sendRelay_body_run in *.
  destruct (bot_by_sid (bots env) _) as [bot|]; [|discriminate].
  destruct (rewrite_mentions env session blank).1 as [content|e'].
  2:{ by inversion H. }
  destruct (sendMessage env bot _ _ _) as [ids|e']; [discriminate|].
  by inversion H.
Qed.

(** A relay whose body raises leaves one warning and nothing else. *)
Lemma sendRelay_of_throw env session entry w e :
  Session.content session ≠ [] →
  (sendRelay_body env session entry w).1 = Throw e →
  relay_deliveries env session entry = []
  ∧ relay_ids env session entry = []
  ∧ relay_log env session entry = [WarnError e].
Proof.
  intros Hc H. unfold relay_deliveries, relay_ids, relay_log, sendRelay.
  destruct (Session.content session); [done|].
  unfold try_catch. by rewrite (sendRelay_body_throw _ _ _ _ _ H blank).
Qed.

(** ** Fan-out *)

Lemma commit_merge env session ids1 ds1 ls1 ids2 ds2 ls2 w :
  puts env session ids2 (add_sents ds2 (add_logs ls2
    (puts env session ids1 (add_sents ds1 (add_logs ls1 w)))))
  = puts env session (ids1 ++ ids2) (add_sents (ds1 ++ ds2) (add_logs (ls1 ++ ls2) w)).
Proof.
  rewrite puts_app. f_equal.
  rewrite !puts_add_sents, !puts_add_logs.
  rewrite add_logs_add_sents, add_sents_app. f_equal.
  by rewrite add_logs_app.
Qed.

(** The fan-out never raises, and its effect is the concatenation of the
    effects of its relays, each as it would be alone. *)
Lemma fan_out_effect env session targets w :
  fan_out env session targets w
  = (Ok tt,
     puts env session (fan_ids env session targets)
       (add_sents (fan_deliveries env session targets)
          (add_logs (fan_log env session targets) w))).
Proof.
  unfold fan_out, fan_ids, fan_deliveries, fan_log.
  revert w; induction targets as [|t ts IH]; intros w.
  - simpl. by rewrite add_logs_nil, add_sents_nil.
  - cbn [for_each flat_map]. unfold bind. rewrite sendRelay_effect, IH.
    by rewrite commit_merge.
Qed.

Lemma fan_deliveries_app env session l1 l2 :
  fan_deliveries env session (l1 ++ l2)
  = fan_deliveries env session l1 ++ fan_deliveries env session l2.
Proof. apply flat_map_app. Qed.

Lemma fan_ids_app env session l1 l2 :
  fan_ids env session (l1 ++ l2) = fan_ids env session l1 ++ fan_ids env session l2.
Proof. apply flat_map_app. Qed.

Lemma fan_log_app env session l1 l2 :
  fan_log env session (l1 ++ l2) = fan_log env session l1 ++ fan_log env session l2.
Proof. apply flat_map_app. Qed.

Lemma sendRelay_of_no_bot env session entry :
  Session.content session ≠ [] →
  bot_by_sid (bots env) (RelayEntry.platform entry +:+ ":" +:+ RelayEntry.selfId entry) = None →
  relay_deliveries env session entry = []
  ∧ relay_ids env session entry = []
  ∧ relay_log env session entry
    = [WarnBotNotFound (RelayEntry.platform entry) (RelayEntry.selfId entry)].
Proof.
  intros Hc H. unfold relay_deliveries, relay_ids, relay_log, sendRelay.
  destruct (Session.content session); [done|].
  unfold try_catch. rewrite sendRelay_body_run, H. done.
Qed.

Lemma relay_fails_effect env session entry warning :
  Session.content session ≠ [] →
  relay_fails env session entry warning →
  relay_deliveries env session entry = []
  ∧ relay_ids env session entry = []
  ∧ relay_log env session entry = [warning].
Proof.
  intros Hc [Hbot|e w Hraise].
  - by apply sendRelay_of_no_bot.
  - by eapply sendRelay_of_throw.
Qed.

(** C3. In a fan-out over [before ++ k :: after] where the relay to [k]
    fails (no bot is connected for it, or the member directory or the
    send raises), the failure stays with [k]: the fan-out completes
    without raising, the sends, the correlation map, the timers and the
    channel table are those of a fan-out over [before ++ after], and the
    log is that fan-out's log with the one warning for [k] at [k]'s
    place. *)
Theorem fan_out_isolates_failure env session before k after w warning :
  Session.content session ≠ [] →
  relay_fails env session (entry_of_target k) warning →
  let full := fan_out env session (before ++ k :: after) w in
  let rest := fan_out env session (before ++ after) w in
  full.1 = Ok tt ∧ rest.1 = Ok tt
  ∧ sent full.2 = sent rest.2
  ∧ relayMap full.2 = relayMap rest.2
  ∧ timers full.2 = timers rest.2
  ∧ db full.2 = db rest.2
  ∧ log full.2 = log w ++ fan_log env session before ++ [warning]
                       ++ fan_log env session after
  ∧ log rest.2 = log w ++ fan_log env session before ++ fan_log env session after.
Proof.
  intros Hc Hk.
  destruct (relay_fails_effect _ _ _ _ Hc Hk) as (Hd & Hi & Hl).
  assert (Hfd : fan_deliveries env session (before ++ k :: after)
                = fan_deliveries env session (before ++ after)).
  { rewrite !fan_deliveries_app. unfold fan_deliveries at 2. simpl. by rewrite Hd. }
  assert (Hfi : fan_ids env session (before ++ k :: after)
                = fan_ids env session (before ++ after)).
  { rewrite !fan_ids_app. unfold fan_ids at 2. simpl. by rewrite Hi. }
  simpl. rewrite !fan_out_effect. simpl.
  rewrite !puts_relayMap, !puts_timers, !puts_sent, !puts_db, !puts_log. simpl.
  rewrite Hfd, Hfi, !fan_log_app. split_and!; try done.
  unfold fan_log at 2. simpl. by rewrite Hl.
Qed.

(** ** Target resolver *)

(** [getTargets] never raises, and writes at most its one warning. *)
Lemma getTargets_effect env session w :
  ∃ targets ls,
    getTargets env session w = (Ok targets, add_logs ls w) ∧ (length ls ≤ 1)%nat.
Proof.
  unfold getTargets.
  destruct (mode_database env).
  2:{ exists (rule_targets env session), []. rewrite add_logs_nil; split; [reflexivity|simpl; lia]. }
  destruct (Session.channel_forward session) as [fwd|].
  { exists fwd, []. rewrite add_logs_nil; split; [reflexivity|simpl; lia]. }
  destruct (cid_truthy (getChannelId session)).
  2:{ exists [], []. rewrite add_logs_nil; split; [reflexivity|simpl; lia]. }
  unfold database_get.
  destruct (db_read_fault env _) as [e|].
  - exists [], [WarnFetchFailed e]. split; [reflexivity|simpl; lia].
  - run. destruct (db w !! _) as [[fwd|]|].
    + exists fwd, []. rewrite add_logs_nil; split; [reflexivity|simpl; lia].
    + exists [], []. rewrite add_logs_nil; split; [reflexivity|simpl; lia].
    + exists [], []. rewrite add_logs_nil; split; [reflexivity|simpl; lia].
Qed.

(** C8. In database mode, when the channel row has to be read and the
    read raises, [getTargets] returns the empty list and logs the
    failure; nothing is raised to the caller, and the middleware of a
    forward-candidate goes on to the continuation with no relay. *)
Theorem getTargets_read_failure env session w e :
  mode_database env = true →
  Session.channel_forward session = None →
  cid_truthy (getChannelId session) = true →
  db_read_fault env (Session.platform session, getChannelId session) = Some e →
  getTargets env session w = (Ok [], add_log (WarnFetchFailed e) w)
  ∧ (quoted_entry session w = None →
     middleware env session w
     = (match next env with
        | Ok result => Ok (FromNext result)
        | Throw e' => Throw e'
        end,
        mkWorld (relayMap w) (timers w) (now w) (db w) (sent w)
                (log w ++ [WarnFetchFailed e; DebugMiddleware (Session.cid session) []])
                (S (nextCalls w)) (proto w))).
Proof.
  intros Hmode Hfwd Hcid Hfault.
  assert (Hget : getTargets env session w = (Ok [], add_log (WarnFetchFailed e) w)).
  { unfold getTargets, database_get. by rewrite Hmode, Hfwd, Hcid, Hfault. }
  split; [exact Hget|].
  intros Hq. unfold middleware. unfold bind at 1. unfold gets at 1. rewrite Hq.
  unfold bind at 1. rewrite Hget. run.
  rewrite <- app_assoc. simpl. by destruct (next env).
Qed.

(** ** Middleware *)

Lemma bot_by_sid_Some bots sid b : bot_by_sid bots sid = Some b → Bot.sid b = sid.
Proof.
  induction bots as [|b' bots IH]; simpl; [discriminate|].
  destruct (decide (Bot.sid b' = sid)); [by intros [= <-]|done].
Qed.

(** A relay sends at most once, through the bot of the entry, to the
    channel and guild of the entry. *)
Lemma relay_deliveries_shape env session entry :
  (length (relay_deliveries env session entry) ≤ 1)%nat
  ∧ ∀ d, d ∈ relay_deliveries env session entry →
         Bot.sid (Delivery.bot d)
         = RelayEntry.platform entry +:+ ":" +:+ RelayEntry.selfId entry
         ∧ Delivery.channelId d = RelayEntry.channelId entry
         ∧ Delivery.guildId d = RelayEntry.guildId entry.
Proof.
  unfold relay_deliveries, sendRelay.
  destruct (Session.content session) as [|c0 cs].
  { simpl. split; [lia|]. by intros d ?%elem_of_nil. }
  unfold try_catch. rewrite sendRelay_body_run.
  destruct (bot_by_sid (bots env) _) as [bot|] eqn:Hbot.
  2:{ simpl. split; [lia|]. by intros d ?%elem_of_nil. }
  destruct (rewrite_mentions env session blank).1 as [content|e].
  2:{ simpl. split; [lia|]. by intros d ?%elem_of_nil. }
  destruct (sendMessage env bot _ _ _) as [ids|e].
  2:{ simpl. split; [lia|]. by intros d ?%elem_of_nil. }
  cbn [snd]. rewrite puts_sent. simpl. split; [lia|].
  intros d ->%list_elem_of_singleton. simpl.
  by apply bot_by_sid_Some in Hbot.
Qed.

(** The forward path, run. *)
Lemma middleware_forward env session w :
  quoted_entry session w = None →
  ∃ targets ls,
    getTargets env session w = (Ok targets, add_logs ls w)
    ∧ middleware env session w
      = (match next env with
         | Ok result => Ok (FromNext result)
         | Throw e => Throw e
         end,
         let w' := puts env session (fan_ids env session targets)
                     (add_sents (fan_deliveries env session targets)
                        (add_logs (ls ++ DebugMiddleware (Session.cid session) targets
                                      :: fan_log env session targets) w)) in
         mkWorld (relayMap w') (timers w') (now w') (db w') (sent w') (log w')
                 (S (nextCalls w')) (proto w')).
Proof.
  intros Hq. destruct (getTargets_effect env session w) as (targets & ls & Hget & _).
  exists targets, ls. split; [exact Hget|].
  unfold middleware. unfold bind at 1. unfold gets at 1. rewrite Hq.
  unfold bind at 1. rewrite Hget.
  unfold bind at 1. unfold logger at 1. unfold modify at 1.
  unfold bind at 1. rewrite fan_out_effect.
  unfold bind, call_next, bind, modify, await, ret.
  assert (Hw : add_logs (fan_log env session targets)
                 (add_log (DebugMiddleware (Session.cid session) targets) (add_logs ls w))
               = add_logs (ls ++ DebugMiddleware (Session.cid session) targets
                              :: fan_log env session targets) w).
  { apply World_eq; simpl; try done. by rewrite <- !app_assoc. }
  rewrite Hw. by destruct (next env).
Qed.

(** The reply path, run. *)
Lemma middleware_reply env session w entry :
  quoted_entry session w = Some entry →
  middleware env session w = (Ok Undefined, (sendRelay env session entry w).2).
Proof.
  intros Hq. unfold middleware. unfold bind at 1. unfold gets at 1. rewrite Hq.
  unfold bind. by rewrite sendRelay_effect.
Qed.

Lemma quoted_entry_hit session w q entry :
  Session.quote_id session = Some q → q ≠ "" → get q w = Some entry →
  quoted_entry session w = Some entry.
Proof.
  unfold quoted_entry. intros -> Hq ->. by destruct q.
Qed.

Lemma quoted_entry_miss session w :
  Session.quote_id session = None
  ∨ Session.quote_id session = Some ""
  ∨ (∃ q, Session.quote_id session = Some q ∧ get q w = None) →
  quoted_entry session w = None.
Proof.
  unfold quoted_entry. intros [->|[->|(q & -> & ->)]]; try done. by destruct (truthy q).
Qed.

(** C1, as the code has it. A message whose quoted id is a non-empty
    live key (an own property of the map) is relayed to the recorded
    entry and nothing else happens: the middleware is the one
    [sendRelay], at most one send is made, to the entry's bot, channel
    and guild, and no target is resolved (the log gains the relay's
    lines only). A message with no quotation, with an empty quoted id,
    or whose quoted id the map does not answer (it is no live key and no
    name the map object inherits, as is every key that is not reserved
    and not live) has its targets resolved and one relay run for each of
    them. *)
Theorem middleware_routes env session w :
  (∀ q entry,
      Session.quote_id session = Some q → q ≠ "" → relayMap w !! q = Some entry →
      let after := middleware env session w in
      after = (Ok Undefined, (sendRelay env session entry w).2)
      ∧ sent after.2 = sent w ++ relay_deliveries env session entry
      ∧ log after.2 = log w ++ relay_log env session entry
      ∧ (length (relay_deliveries env session entry) ≤ 1)%nat
      ∧ (∀ d, d ∈ relay_deliveries env session entry →
              Bot.sid (Delivery.bot d)
              = RelayEntry.platform entry +:+ ":" +:+ RelayEntry.selfId entry
              ∧ Delivery.channelId d = RelayEntry.channelId entry
              ∧ Delivery.guildId d = RelayEntry.guildId entry))
  ∧ (Session.quote_id session = None
     ∨ Session.quote_id session = Some ""
     ∨ (∃ q, Session.quote_id session = Some q ∧ get q w = None) →
     ∃ targets ls,
       getTargets env session w = (Ok targets, add_logs ls w)
       ∧ sent (middleware env session w).2
         = sent w ++ fan_deliveries env session targets
       ∧ log (middleware env session w).2
         = log w ++ ls ++ DebugMiddleware (Session.cid session) targets
                 :: fan_log env session targets
       ∧ relayMap (middleware env session w).2
         = relayMap (puts env session (fan_ids env session targets) w))
  ∧ (∀ q, q ∉ reserved_keys → relayMap w !! q = None → get q w = None).
Proof.
  split_and!.
  - intros q entry Hq Hne Hget. simpl.
    rewrite (middleware_reply env session w entry)
      by (apply quoted_entry_hit with q; [done..|by apply get_own]).
    rewrite sendRelay_effect. cbn [snd]. rewrite puts_sent, puts_log. simpl.
    split_and!; try done; apply relay_deliveries_shape.
  - intros Hmiss%quoted_entry_miss.
    destruct (middleware_forward env session w Hmiss) as (targets & ls & Hget & Hmw).
    exists targets, ls. split; [done|]. rewrite Hmw. cbn [snd].
    simpl. rewrite puts_sent, puts_log, !puts_relayMap. done.
  - intros q Hres Hown. by rewrite get_ordinary.
Qed.

(** A witness: the message [demo_session] is forwarded; after that the
    reply quoting [m200] is relayed to [onebot:100] alone. *)
Lemma middleware_routes_witness :
  let w := (middleware demo_env demo_session blank).2 in
  sent (middleware demo_env (demo_reply "m200") w).2
  = sent w ++ relay_deliveries demo_env (demo_reply "m200") (origin demo_session)
  ∧ sent w = fan_deliveries demo_env demo_session [target_200; target_bad; target_300].
Proof.
  split.
  - apply (proj1 (middleware_routes demo_env (demo_reply "m200")
                    (middleware demo_env demo_session blank).2) "m200" (origin demo_session));
      [reflexivity|discriminate|by vm_compute].
  - destruct (proj1 (proj2 (middleware_routes demo_env demo_session blank)) (or_introl eq_refl))
      as (targets & ls & Hget & Hsent & _).
    rewrite Hsent. by inversion Hget.
Defined.

(** C1, as the claim words it, fails for the empty id: when a send has
    returned the id [""], a message quoting [""] quotes a live key, yet
    the middleware resolves the targets and fans out (the continuation's
    result comes back, the debug line is logged, the sends go to the
    forward targets). *)
Lemma empty_quoted_id_is_forwarded :
  let w := put demo_env demo_session "" blank in
  let forwarding := Session.mk "onebot" (CidString "100") "B0" (Some "g1")
                      "onebot:100" "bob" [Text "yo"] (Some "") None in
  get "" w = Some (origin demo_session)
  ∧ (middleware demo_env forwarding w).1 = Ok (FromNext "handled")
  ∧ middleware demo_env forwarding w
    ≠ (Ok Undefined, (sendRelay demo_env forwarding (origin demo_session) w).2)
  ∧ Delivery.channelId <$> sent (middleware demo_env forwarding w).2
    = [CidString "200"; CidString "300"].
Proof. simpl. split_and!; [by vm_compute|by vm_compute|by vm_compute|by vm_compute]. Qed.

(** A quoted id that is a name the map object inherits, such as
    [constructor], is answered by the map although no send ever returned
    it: the message takes the reply path with a value that is no entry,
    so no bot is found for it, nothing is sent, no target is resolved and
    the continuation is not called. *)
Lemma inherited_quoted_id_is_relayed env session w q :
  Session.quote_id session = Some q →
  q ∈ Object_prototype_keys →
  relayMap w !! q = None →
  middleware env session w = (Ok Undefined, (sendRelay env session undefined_entry w).2).
Proof.
  intros Hq Hin Hown. apply middleware_reply.
  unfold quoted_entry, get. rewrite Hq, Hown.
  assert (Hne : q ≠ "__proto__").
  { intros ->. unfold Object_prototype_keys in Hin.
    repeat (apply elem_of_cons in Hin as [Hin|Hin]; [discriminate Hin|]).
    by apply elem_of_nil in Hin. }
  assert (truthy q = true) as ->.
  { destruct q; [|done]. unfold Object_prototype_keys in Hin.
    repeat (apply elem_of_cons in Hin as [Hin|Hin]; [discriminate Hin|]).
    by apply elem_of_nil in Hin. }
  rewrite decide_False by done.
  rewrite (bool_decide_eq_true_2 _ Hin).
  by destruct (match proto w with Some e => field_truthy e q | None => false end).
Qed.

Example constructor_quoted :
  let after := middleware demo_env (demo_reply "constructor") blank in
  after.1 = Ok Undefined
  ∧ sent after.2 = []
  ∧ nextCalls after.2 = 0%nat
  ∧ log after.2 = [WarnBotNotFound "undefined" "undefined"].
Proof. simpl. split_and!; by vm_compute. Qed.

(** C4, as the code has it. For a forward-candidate the continuation is
    called once and the middleware resolves to its outcome, whatever the
    relays did; for a reply-candidate the continuation is not called and
    the middleware resolves to the (empty) value of the relay. *)
Theorem middleware_and_continuation env session w :
  (quoted_entry session w = None →
   nextCalls (middleware env session w).2 = S (nextCalls w)
   ∧ (middleware env session w).1
     = match next env with
       | Ok result => Ok (FromNext result)
       | Throw e => Throw e
       end)
  ∧ (∀ entry, quoted_entry session w = Some entry →
     nextCalls (middleware env session w).2 = nextCalls w
     ∧ (middleware env session w).1 = Ok Undefined).
Proof.
  split.
  - intros Hq. destruct (middleware_forward env session w Hq) as (targets & ls & _ & ->).
    cbn [fst snd nextCalls]. by rewrite puts_nextCalls.
  - intros entry Hq. rewrite (middleware_reply env session w entry Hq).
    rewrite sendRelay_effect. cbn [fst snd]. by rewrite puts_nextCalls.
Qed.

(** A witness: forwarding [demo_session], where one of the three relays
    raises, still runs the continuation and returns its result. *)
Lemma middleware_and_continuation_witness :
  nextCalls (middleware demo_env demo_session blank).2 = 1%nat
  ∧ (middleware demo_env demo_session blank).1 = Ok (FromNext "handled")
  ∧ WarnError "send failed" ∈ log (middleware demo_env demo_session blank).2.
Proof.
  destruct (proj1 (middleware_and_continuation demo_env demo_session blank) eq_refl)
    as [Hn Hr].
  split_and!; [exact Hn|exact Hr|].
  vm_compute. apply elem_of_cons; right. apply list_elem_of_here.
Defined.

(** C4, as the claim words it, fails on the reply path: a reply that
    quotes a live key is relayed and the continuation is never called,
    although it would have returned a result. *)
Lemma reply_skips_continuation :
  let w := (middleware demo_env demo_session blank).2 in
  let after := middleware demo_env (demo_reply "m200") w in
  next demo_env = Ok "handled"
  ∧ quoted_entry (demo_reply "m200") w = Some (origin demo_session)
  ∧ after.1 = Ok Undefined
  ∧ nextCalls after.2 = nextCalls w.
Proof. simpl. split_and!; by vm_compute. Qed.

(** ** Mention rewriting *)

Lemma transform_children dict children :
  (fix go (l : list Element) : list Element :=
     match l with
     | [] => []
     | c :: l' => transform_elem dict c ++ go l'
     end) children
  = transform dict children.
Proof. induction children as [|c l IH]; [done|]. unfold transform. simpl. by f_equal. Qed.

Lemma transform_elem_kept dict type attrs children :
  type ≠ "at" ∨ attr "id" attrs = None ∨ attr "id" attrs = Some "" →
  transform_elem dict (Elem type attrs children)
  = [Elem type attrs (transform dict children)].
Proof.
  intros H. cbn [transform_elem]. rewrite transform_children.
  destruct (decide (type = "at")) as [->|Hne]; [|done].
  destruct H as [?|[->| ->]]; done.
Qed.

Lemma transform_elem_at dict attrs children id :
  attr "id" attrs = Some id → id ≠ "" →
  transform_elem dict (Elem "at" attrs children) = [Text (at_text dict id)].
Proof.
  intros Hid Hne. cbn [transform_elem]. rewrite Hid.
  destruct id; [done|]. reflexivity.
Qed.

Lemma rewrite_mentions_guild env session g dict :
  select_at_all (Session.content session) ≠ [] →
  Session.guildId session = Some g → g ≠ "" →
  getGuildMemberMap env g = Ok dict →
  (rewrite_mentions env session blank).1
  = Ok (transform dict (Session.content session)).
Proof.
  intros Hat Hg Hne Hdict. unfold rewrite_mentions.
  destruct (select_at_all (Session.content session)); [done|].
  rewrite Hg. destruct g; [done|]. run. by rewrite Hdict.
Qed.

Lemma select_at_all_content content : select_at_all content ≠ [] → content ≠ [].
Proof. by destruct content. Qed.

Lemma sendRelay_nonempty env session entry :
  Session.content session ≠ [] →
  sendRelay env session entry
  = try_catch (sendRelay_body env session entry) (λ error, logger (WarnError error)).
Proof. unfold sendRelay. by destruct (Session.content session). Qed.

(** C9, as the code has it. For a message with mention markup posted in
    a guild, what is sent is the author prefix followed by the content
    transformed with the source guild's member directory; the transform
    works element by element, a mention with a non-empty id the directory
    resolves becomes the text ["@" + name], a mention that carries no id
    (or an empty one) is passed through as it is, and so is every element
    that is not a mention. *)
Theorem mentions_rewritten env session entry w bot g dict ids :
  select_at_all (Session.content session) ≠ [] →
  Session.guildId session = Some g → g ≠ "" →
  bot_by_sid (bots env)
    (RelayEntry.platform entry +:+ ":" +:+ RelayEntry.selfId entry) = Some bot →
  getGuildMemberMap env g = Ok dict →
  sendMessage env bot (RelayEntry.channelId entry)
    (with_author session (transform dict (Session.content session)))
    (RelayEntry.guildId entry) = Ok ids →
  sent (sendRelay env session entry w).2
  = sent w ++ [Delivery.mk bot (RelayEntry.channelId entry)
                 (with_author session (transform dict (Session.content session)))
                 (RelayEntry.guildId entry)]
  ∧ (∀ l1 e l2,
        transform dict (l1 ++ e :: l2)
        = transform dict l1 ++ transform_elem dict e ++ transform dict l2)
  ∧ (∀ attrs children id name,
        attr "id" attrs = Some id → id ≠ "" → dict !! id = Some name →
        transform_elem dict (Elem "at" attrs children) = [Text ("@" +:+ name)])
  ∧ (∀ attrs children,
        attr "id" attrs = None ∨ attr "id" attrs = Some "" →
        transform_elem dict (Elem "at" attrs children)
        = [Elem "at" attrs (transform dict children)])
  ∧ (∀ type attrs children,
        type ≠ "at" →
        transform_elem dict (Elem type attrs children)
        = [Elem type attrs (transform dict children)])
  ∧ (∀ s, transform_elem dict (Text s) = [Text s]).
Proof.
  intros Hat Hg Hne Hbot Hdict Hsend. split_and!.
  - rewrite sendRelay_nonempty by (by apply select_at_all_content).
    unfold try_catch. rewrite sendRelay_body_run, Hbot.
    rewrite (rewrite_mentions_guild env session g dict) by done.
    rewrite Hsend. cbn [snd]. by rewrite puts_sent.
  - intros l1 e l2. unfold transform. by rewrite flat_map_app.
  - intros attrs children id name Hid Hid' Hname.
    rewrite (transform_elem_at dict attrs children id) by done.
    unfold at_text. by rewrite Hname.
  - intros attrs children H. apply transform_elem_kept. by right.
  - intros type attrs children H. apply transform_elem_kept. by left.
  - done.
Qed.

(** A witness: in [demo_mentions] the mention of member [7] is sent as
    [@alice]. *)
Lemma mentions_rewritten_witness :
  ∃ d, sent (sendRelay demo_env demo_mentions (entry_of_target target_200) blank).2 = [d]
       ∧ Delivery.content d !! 2%nat = Some (Text "@alice").
Proof.
  eexists. split.
  - apply (proj1 (mentions_rewritten demo_env demo_mentions (entry_of_target target_200)
                    blank (Bot.mk "discord" "B1") "g1" {[ "7" := "alice" ]} ["m200"]
                    ltac:(discriminate) eq_refl ltac:(discriminate)
                    eq_refl eq_refl eq_refl)).
  - reflexivity.
Defined.

(** C9, as the claim words it, fails for a mention whose id the
    directory does not resolve: the mention of member [9] is not passed
    through, it is replaced by the text [@undefined]. *)
Lemma unresolved_mention_is_replaced :
  let dict : gmap string string := {[ "7" := "alice" ]} in
  let mention := Elem "at" [("id", "9")] [] in
  dict !! "9" = None
  ∧ mention ∈ Session.content demo_mentions
  ∧ Delivery.content
    <$> sent (sendRelay demo_env demo_mentions (entry_of_target target_200) blank).2
    = [[Text "bob: "; Text "hello "; Text "@alice"; Text "@undefined"]]
  ∧ transform_elem dict mention = [Text "@undefined"]
  ∧ transform_elem dict mention ≠ [mention].
Proof.
  simpl. split_and!; [by vm_compute| |by vm_compute|by vm_compute|by vm_compute].
  do 2 (apply elem_of_cons; right). apply list_elem_of_here.
Qed.

(** ** Commands *)

(** C10. The remove command with an address that does not parse answers
    "unchanged" and leaves the world, and with it the stored targets of
    every channel, as it was: nothing is read, written or logged. *)
Theorem remove_unparsed_is_noop env session id w :
  parseTarget (bots env) id = None →
  cmd_remove env session id w = (Ok (TextUnchanged id), w)
  ∧ db (cmd_remove env session id w).2 = db w.
Proof. intros H. unfold cmd_remove. rewrite H. done. Qed.

(** A witness: [forward.remove nowhere] with no colon in the address. *)
Lemma remove_unparsed_is_noop_witness :
  cmd_remove demo_env demo_session "nowhere" blank = (Ok (TextUnchanged "nowhere"), blank).
Proof. apply (remove_unparsed_is_noop demo_env demo_session "nowhere" blank). reflexivity. Defined.

(** ** Correlation store *)

Lemma deletes_lookup (m : gmap string RelayEntry.t) (tms : list (N * string)) k :
  foldl (λ m tm, delete tm.2 m) m tms !! k
  = if decide (k ∈ tms.*2) then None else m !! k.
Proof.
  revert m; induction tms as [|[d id] tms IH]; intros m; cbn [foldl fmap list_fmap].
  - rewrite decide_False; [done|]. apply not_elem_of_nil.
  - rewrite IH. simpl. destruct (decide (k ∈ tms.*2)) as [Hin|Hnin].
    + rewrite decide_True; [done|]. by right.
    + destruct (decide (id = k)) as [->|Hne].
      * rewrite lookup_delete_eq. rewrite decide_True; [done|]. by left.
      * rewrite lookup_delete_ne by done.
        rewrite decide_False; [done|]. intros [?|?]%elem_of_cons; congruence.
Qed.

Lemma elapse_own dt w k :
  relayMap (elapse dt w) !! k
  = if decide (k ∈ (filter (λ tm, due (now w + dt) tm = true) (timers w)).*2)
    then None else relayMap w !! k.
Proof. unfold elapse. cbn [relayMap]. apply deletes_lookup. Qed.

Lemma elapse_own_due dt w k d :
  (d, k) ∈ timers w → (d ≤ now w + dt)%N → relayMap (elapse dt w) !! k = None.
Proof.
  intros Hin Hle. rewrite elapse_own. rewrite decide_True; [done|].
  apply list_elem_of_fmap. exists (d, k). split; [done|].
  apply list_elem_of_filter. split; [|done]. unfold due. simpl. by apply N.leb_le.
Qed.

Lemma elapse_own_keep dt w k :
  (∀ d, (d, k) ∈ timers w → (now w + dt < d)%N) →
  relayMap (elapse dt w) !! k = relayMap w !! k.
Proof.
  intros Hall. rewrite elapse_own. rewrite decide_False; [done|].
  intros ([d id] & -> & Hin)%list_elem_of_fmap.
  apply list_elem_of_filter in Hin as [Hdue Hin].
  unfold due in Hdue. simpl in *. apply N.leb_le in Hdue.
  specialize (Hall _ Hin). lia.
Qed.

Lemma elapse_own_None dt w k :
  relayMap w !! k = None → relayMap (elapse dt w) !! k = None.
Proof. intros H. rewrite elapse_own. by destruct (decide _). Qed.

Lemma elapse_timers dt w d k :
  (d, k) ∈ timers (elapse dt w) ↔ (d, k) ∈ timers w ∧ (now w + dt < d)%N.
Proof.
  unfold elapse. cbn [timers]. rewrite list_elem_of_filter. unfold due. simpl.
  rewrite N.leb_gt. tauto.
Qed.

Lemma put_own env session id w k :
  k ≠ "__proto__" →
  relayMap (put env session id w) !! k
  = if decide (id = k) then Some (origin session) else relayMap w !! k.
Proof. intros Hk. unfold put. cbn [relayMap]. by apply own_put_lookup_ne. Qed.

Lemma put_timers env session id w d k :
  (d, k) ∈ timers (put env session id w)
  ↔ (d, k) ∈ timers w ∨ (d = (now w + timer_delay (ttl env))%N ∧ k = id).
Proof.
  unfold put. cbn [timers]. rewrite elem_of_app, list_elem_of_singleton.
  split; (intros [?|H]; [by left|right]); [by inversion H|by destruct H as [-> ->]].
Qed.

(** A live entry stays live, or expires, under an event that does not
    register its key; an expired one stays expired. *)
Lemma entry_step env k e D w ev :
  k ∉ reserved_keys →
  ¬ puts_key k ev →
  entry_live k e D w ∨ entry_expired k D w →
  entry_live k e D (store_step env w ev) ∨ entry_expired k D (store_step env w ev).
Proof.
  intros Hk Hev. pose proof (reserved_proto k Hk) as Hproto.
  unfold entry_live, entry_expired. rewrite !(get_ordinary k) by done.
  destruct ev as [session id|dt]; cbn [store_step puts_key] in *.
  - (* another key is registered *)
    intros [(Hget & Hin & Hall & Hnow)|(Hget & Hno & Hnow)]; [left|right].
    + split_and!.
      * rewrite put_own by done. by rewrite decide_False.
      * apply put_timers. by left.
      * intros d [?|[_ ?]]%put_timers; [by apply Hall|congruence].
      * done.
    + split_and!.
      * rewrite put_own by done. by rewrite decide_False.
      * intros d [?|[_ ?]]%put_timers; [by eapply Hno|congruence].
      * done.
  - (* time passes *)
    intros [(Hget & Hin & Hall & Hnow)|(Hget & Hno & Hnow)].
    + destruct (decide (now w + dt < D)%N) as [Hlt|Hge].
      * left. split_and!.
        -- rewrite elapse_own_keep; [done|].
           intros d Hd. by apply Hall in Hd as ->.
        -- apply elapse_timers. done.
        -- intros d [Hd _]%elapse_timers. by apply Hall.
        -- done.
      * right. split_and!.
        -- apply (elapse_own_due dt w k D); [done|lia].
        -- intros d [Hd Hlt]%elapse_timers. apply Hall in Hd as ->. lia.
        -- simpl. lia.
    + right. split_and!.
      * by apply elapse_own_None.
      * intros d [Hd _]%elapse_timers. by eapply Hno.
      * simpl. lia.
Qed.

Lemma entry_run env k e D evs w :
  k ∉ reserved_keys →
  Forall (λ ev, ¬ puts_key k ev) evs →
  entry_live k e D w ∨ entry_expired k D w →
  entry_live k e D (run_store env evs w) ∨ entry_expired k D (run_store env evs w).
Proof.
  unfold run_store. intros Hk Hevs; revert w.
  induction Hevs as [|ev evs Hev _ IH]; intros w Hw; [done|].
  simpl. apply IH. by apply entry_step.
Qed.

Lemma ttl_positive env : (0 < ttl env)%N.
Proof.
  unfold ttl, Time_hour. destruct (replyTimeout env) as [n|]; [|lia].
  destruct (n =? 0)%N eqn:E; [lia|]. apply N.eqb_neq in E. lia.
Qed.

Lemma timer_delay_bounds ms : (0 < ms)%N → (0 < timer_delay ms ∧ timer_delay ms ≤ ms)%N.
Proof.
  intros Hms. unfold timer_delay.
  destruct ((ms <? 1) || (TIMEOUT_MAX <? ms))%N eqn:E; lia.
Qed.

Lemma timer_delay_in_range ms :
  (0 < ms)%N → (ms ≤ TIMEOUT_MAX)%N → timer_delay ms = ms.
Proof.
  intros H1 H2. unfold timer_delay.
  rewrite (proj2 (N.ltb_ge ms 1)) by lia.
  by rewrite (proj2 (N.ltb_ge TIMEOUT_MAX ms)) by lia.
Qed.

Lemma timer_delay_clamped ms : (TIMEOUT_MAX < ms)%N → timer_delay ms = 1%N.
Proof.
  intros H. unfold timer_delay.
  by rewrite (proj2 (N.ltb_lt TIMEOUT_MAX ms) H), orb_true_r.
Qed.

(** C5, as the code has it. An entry registered under a key that is not
    reserved, that has no timer pending from an earlier registration, and
    that no later event registers again, is returned by a lookup at any
    time less than the timer's delay after the registration and is
    absent at any time from that delay on. The delay is the configured
    [replyTimeout] when that is between 1 and [2^31 - 1] ms, one hour
    when it is unset or zero, and 1 ms when it is [2^31] ms or more. The
    lookup of the middleware changes nothing. *)
Theorem entry_lifetime env session k w evs :
  k ∉ reserved_keys →
  (∀ d, (d, k) ∉ timers w) →
  Forall (λ ev, ¬ puts_key k ev) evs →
  let registered := put env session k w in
  let later := run_store env evs registered in
  let delay := timer_delay (ttl env) in
  ((now later < now registered + delay)%N → get k later = Some (origin session))
  ∧ ((now registered + delay ≤ now later)%N → get k later = None)
  ∧ (∀ reply, gets (quoted_entry reply) later = (Ok (quoted_entry reply later), later))
  ∧ (replyTimeout env = None → delay = 3600000%N)
  ∧ (replyTimeout env = Some 0%N → delay = 3600000%N)
  ∧ (∀ T, replyTimeout env = Some T → (0 < T)%N → (T ≤ 2147483647)%N → delay = T)
  ∧ (∀ T, replyTimeout env = Some T → (2147483647 < T)%N → delay = 1%N).
Proof.
  intros Hk Hfresh Hevs. simpl.
  pose proof (reserved_proto k Hk) as Hproto.
  assert (Hlive : entry_live k (origin session) (now w + timer_delay (ttl env))%N
                    (put env session k w)).
  { unfold entry_live. rewrite (get_ordinary k) by done. split_and!.
    - rewrite put_own by done. by rewrite decide_True.
    - apply put_timers. by right.
    - intros d [Hd|[-> _]]%put_timers; [by apply Hfresh in Hd|done].
    - pose proof (timer_delay_bounds _ (ttl_positive env)). simpl. lia. }
  pose proof (entry_run env k _ _ evs _ Hk Hevs (or_introl Hlive)) as Hrun.
  assert (Httl : ∀ T, replyTimeout env = Some T → (0 < T)%N → ttl env = T).
  { unfold ttl. intros T -> HT. destruct (T =? 0)%N eqn:E; [|done].
    apply N.eqb_eq in E. lia. }
  split_and!.
  - intros Hlt. destruct Hrun as [(Hget & _)|(_ & _ & Hnow)]; [done|]. simpl in *. lia.
  - intros Hge. destruct Hrun as [(_ & _ & _ & Hnow)|(Hget & _)]; [|done]. simpl in *. lia.
  - done.
  - unfold ttl. by intros ->.
  - unfold ttl. by intros ->.
  - intros T HT H1 H2. rewrite (Httl T HT H1). by apply timer_delay_in_range.
  - intros T HT H1. rewrite (Httl T HT) by (unfold TIMEOUT_MAX in *; lia).
    by apply timer_delay_clamped.
Qed.

(** A witness: with a timeout of 1000 ms, the entry of [m200] is there
    after 500 ms and gone after 1000 ms, another key being registered in
    between. *)
Lemma entry_lifetime_witness :
  let registered := put demo_env demo_session "m200" blank in
  get "m200" (run_store demo_env [Elapse 500] registered) = Some (origin demo_session)
  ∧ get "m200" (run_store demo_env [Elapse 500; Put demo_session "m300"; Elapse 500]
                  registered) = None.
Proof.
  assert (Hkey : "m200" ∉ reserved_keys).
  { unfold reserved_keys, Object_prototype_keys. rewrite !not_elem_of_cons.
    split_and!; try discriminate. apply not_elem_of_nil. }
  assert (Hfresh : ∀ d : N, (d, "m200") ∉ timers blank).
  { intros d H. by apply elem_of_nil in H. }
  split.
  - apply (proj1 (entry_lifetime demo_env demo_session "m200" blank [Elapse 500] Hkey Hfresh
                    ltac:(repeat constructor; simpl; tauto))).
    by vm_compute.
  - apply (proj1 (proj2 (entry_lifetime demo_env demo_session "m200" blank
                           [Elapse 500; Put demo_session "m300"; Elapse 500] Hkey Hfresh
                           ltac:(repeat constructor; simpl; (tauto || discriminate))))).
    by vm_compute.
Defined.

(** C5, as the claim words it, fails when a key is registered while a
    timer of an earlier registration of the same key is pending. With a
    timeout of 1000 ms, a message is forwarded at time 0 and another, from
    another channel, at time 500, and both sends return the id [42]: the
    timer of the first registration deletes the entry at time 1000, so a
    lookup at time 1200, 700 ms after the second registration, finds
    nothing. *)
Lemma second_registration_expires_early :
  let w1 := (middleware shared_id_env demo_session blank).2 in
  let w2 := elapse 500 w1 in
  let w3 := (middleware shared_id_env other_session w2).2 in
  let w4 := elapse 700 w3 in
  ttl shared_id_env = 1000%N
  ∧ now w3 = 500%N
  ∧ get "42" w3 = Some (origin other_session)
  ∧ now w4 = 1200%N
  ∧ (now w4 - now w3 < ttl shared_id_env)%N
  ∧ get "42" w4 = None.
Proof. simpl. split_and!; by vm_compute. Qed.

(** The registrations of a relay are [Put] events of the store, one for
    each id its send returned. *)
Lemma run_store_puts env session ids w :
  run_store env (Put session <$> ids) w = puts env session ids w.
Proof.
  unfold run_store, puts. revert w; induction ids as [|id ids IH]; intros w; [done|].
  simpl. apply IH.
Qed.

Lemma sendRelay_registers env session entry w :
  let after := (sendRelay env session entry w).2 in
  let events := run_store env (Put session <$> relay_ids env session entry) w in
  relayMap after = relayMap events
  ∧ timers after = timers events
  ∧ now after = now events.
Proof.
  simpl. rewrite sendRelay_effect, run_store_puts. cbn [snd].
  by rewrite !puts_relayMap, !puts_timers, !puts_now.
Qed.

(** The scenario of the timeout: a message forwarded at time 0 gets the
    sent id [m200]; a reply quoting it at 500 ms goes back to the origin
    alone; the same reply at 1500 ms is a forward-candidate. *)
Example reply_window :
  let w0 := (middleware demo_env demo_session blank).2 in
  let early := middleware demo_env (demo_reply "m200") (elapse 500 w0) in
  let late := middleware demo_env (demo_reply "m200") (elapse 1500 w0) in
  early.1 = Ok Undefined
  ∧ (Delivery.channelId <$> sent early.2)
    = [CidString "200"; CidString "300"; CidString "100"]
  ∧ late.1 = Ok (FromNext "handled")
  ∧ sent late.2 = sent w0.
Proof. simpl. split_and!; by vm_compute. Qed.

(** The scenario of config mode: the rule from [onebot:100] to
    [discord:200] sends ["bob: hi"] through the bot [B1]. *)
Example config_rule_dispatch :
  let env := mkEnv [Bot.mk "onebot" "B0"; Bot.mk "discord" "B1"] false
               (Some [Rule.mk "onebot:100" "discord:200" "B1" None])
               None (λ _, Ok ∅) demo_send (λ _, None) (λ _, None) (Ok "handled") in
  sent (middleware env demo_session blank).2
  = [Delivery.mk (Bot.mk "discord" "B1") (CidString "200")
       [Text "bob: "; Text "hi"] None].
Proof. by vm_compute. Qed.

(** A witness for the isolation of failures: of the three targets of
    [demo_session] the second raises on send; the other two are served. *)
Lemma fan_out_isolates_failure_witness :
  (Delivery.channelId
     <$> sent (fan_out demo_env demo_session [target_200; target_bad; target_300] blank).2)
  = [CidString "200"; CidString "300"]
  ∧ log (fan_out demo_env demo_session [target_200; target_bad; target_300] blank).2
    = [WarnError "send failed"].
Proof.
  destruct (fan_out_isolates_failure demo_env demo_session
              [target_200] target_bad [target_300] blank (WarnError "send failed"))
    as (_ & _ & Hsent & _ & _ & _ & Hlog & _).
  - discriminate.
  - apply (fails_raise demo_env demo_session (entry_of_target target_bad)
             "send failed" blank). reflexivity.
  - split.
    + exact (eq_trans (f_equal (fmap Delivery.channelId) Hsent) eq_refl).
    + exact (eq_trans Hlog eq_refl).
Defined.

(** A witness for the read failure: the table cannot be read, the
    resolver answers with no target and one warning. *)
Lemma getTargets_read_failure_witness :
  getTargets demo_db_env demo_session blank
  = (Ok [], add_log (WarnFetchFailed "db down") blank).
Proof.
  apply (getTargets_read_failure demo_db_env demo_session blank "db down");
    reflexivity.
Defined.

(* ===================================================================== *)
(** * Part III. Further properties of the code                            *)
(* ===================================================================== *)

(** ** Bot registry and address codec *)

(** X1. [findBot] finds nothing exactly when no connected bot has the
    platform; what it finds is the [selfId] of the first connected bot of
    that platform. *)
Theorem findBot_first bots platform :
  (findBot bots platform = None ↔ platform ∉ map Bot.platform bots)
  ∧ ∀ selfId, findBot bots platform = Some selfId →
      ∃ before after,
        bots = before ++ Bot.mk platform selfId :: after
        ∧ platform ∉ map Bot.platform before.
Proof.
  induction bots as [|b bots [IHn IHs]]; simpl.
  - split; [|discriminate]. split; [|done]. intros _ H. by apply elem_of_nil in H.
  - destruct (decide (Bot.platform b = platform)) as [<-|Hne].
    + split.
      * split; [discriminate|]. intros H. exfalso. apply H. apply list_elem_of_here.
      * intros selfId [= <-]. exists [], bots. destruct b. split; [done|].
        intros H. by apply elem_of_nil in H.
    + split.
      * rewrite IHn. rewrite elem_of_cons. naive_solver.
      * intros selfId (before & after & -> & Hnot)%IHs.
        exists (b :: before), after. split; [done|]. simpl.
        rewrite elem_of_cons. naive_solver.
Qed.

Lemma accepted_same s q1 q2 :
  accepts s q1 = true → accepts s q2 = true →
  String.length q1 = String.length q2 → q1 = q2.
Proof.
  intros [_ H1]%andb_true_iff [_ H2]%andb_true_iff Hlen.
  apply startsWith_split in H1, H2. rewrite !append_assoc in *.
  rewrite H1 in H2 at 1.
  by destruct (append_same_length_inj _ _ _ _ H2 Hlen).
Qed.

Lemma match_platform_ext s ps1 ps2 :
  by_length_desc ps1 → by_length_desc ps2 →
  (∀ q, q ∈ ps1 ↔ q ∈ ps2) →
  match_platform s ps1 = match_platform s ps2.
Proof.
  intros S1 S2 Hsame.
  destruct (match_platform s ps1) as [r1|] eqn:E1;
    destruct (match_platform s ps2) as [r2|] eqn:E2; try done.
  - pose proof (match_platform_Some _ _ _ E1) as (In1 & A1 & F1).
    pose proof (match_platform_Some _ _ _ E2) as (In2 & A2 & F2).
    assert (Hp : Parsed.platform r1 = Parsed.platform r2).
    { apply (accepted_same s); [done..|]. apply Nat.le_antisymm.
      - apply (match_platform_longest s ps2 r2); [done..| |done]. by apply Hsame.
      - apply (match_platform_longest s ps1 r1); [done..| |done]. by apply Hsame. }
    destruct r1 as [p1 c1], r2 as [p2 c2]; simpl in *. subst p2.
    rewrite <- F2 in F1. apply String.app_inj in F1.
    change (String ":" c1 = String ":" c2) in F1. by inversion F1.
  - pose proof (match_platform_Some _ _ _ E1) as (In1 & A1 & _).
    eapply match_platform_None in E2; [|by apply Hsame]. congruence.
  - pose proof (match_platform_Some _ _ _ E2) as (In2 & A2 & _).
    eapply match_platform_None in E1; [|by apply Hsame]. congruence.
Qed.

(** X2. [parseTarget] depends on the set of connected platform names
    only: the order in which the bots connected, and how many bots a
    platform has, make no difference. *)
Theorem parseTarget_bots_set bots1 bots2 target :
  (∀ q, q ∈ map Bot.platform bots1 ↔ q ∈ map Bot.platform bots2) →
  parseTarget bots1 target = parseTarget bots2 target.
Proof.
  intros Hsame. unfold parseTarget.
  rewrite (match_platform_ext target (platforms bots1) (platforms bots2));
    [done|apply platforms_sorted..|].
  intros q. by rewrite !platforms_elem.
Qed.

(** A witness: two bots on [discord], and the bots in another order. *)
Lemma parseTarget_bots_set_witness :
  parseTarget [Bot.mk "onebot" "B0"; Bot.mk "discord" "B1"] "discord:200"
  = parseTarget [Bot.mk "discord" "B2"; Bot.mk "discord" "B1"; Bot.mk "onebot" "B0"]
      "discord:200".
Proof.
  apply parseTarget_bots_set. intros q. simpl.
  rewrite !elem_of_cons. pose proof (elem_of_nil q). tauto.
Defined.

Lemma has_colon_split s :
  has_colon s = true → ∃ p c, s = p +:+ ":" +:+ c ∧ has_colon p = false.
Proof.
  induction s as [|d s IH]; simpl; [discriminate|].
  destruct (Ascii.eqb d colon) eqn:E.
  - apply Ascii.eqb_eq in E as ->. intros _. by exists "", s.
  - intros (p & c & -> & Hp)%IH. exists (String d p), c. split; [done|].
    simpl. by rewrite E.
Qed.

Lemma before_colon_append p c :
  has_colon p = false → before_colon (p +:+ ":" +:+ c) = p.
Proof.
  induction p as [|d p IH]; intros H; [reflexivity|].
  rewrite append_cons. simpl in *. destruct (Ascii.eqb d colon); [discriminate|].
  by rewrite IH.
Qed.

Lemma split_address_append p c :
  has_colon p = false → split_address (p +:+ ":" +:+ c) = Parsed.mk p c.
Proof.
  intros Hp. unfold split_address. rewrite (before_colon_append p c Hp). f_equal.
  replace (String.length p + 1)%nat with (String.length (p +:+ ":"))
    by (rewrite length_append; reflexivity).
  rewrite <- append_assoc. apply slice_from_append.
Qed.

(** Two colon-free prefixes of one string that are both followed by a
    colon are the same prefix. *)
Lemma colon_free_prefix_inj p q c d :
  has_colon p = false → has_colon q = false →
  p +:+ ":" +:+ c = q +:+ ":" +:+ d → p = q ∧ c = d.
Proof.
  revert q; induction p as [|a p IH]; intros [|b q] Hp Hq; rewrite ?append_cons; simpl in *.
  - intros H. change (String ":" c = String ":" d) in H. by inversion H.
  - intros H. change (String ":" c = String b (q +:+ ":" +:+ d)) in H.
    inversion H; subst b. by rewrite Ascii.eqb_refl in Hq.
  - intros H. change (String a (p +:+ ":" +:+ c) = String ":" d) in H.
    inversion H; subst a. by rewrite Ascii.eqb_refl in Hp.
  - intros [= -> H]. destruct (Ascii.eqb b colon); [discriminate|].
    destruct (IH q Hp Hq H) as [-> ->]. done.
Qed.

(** X3. When no connected platform name contains a colon, [parseTarget]
    reads an address with a colon exactly as the first revision did:
    platform before the first colon, channel id after it. (An address
    with no colon is where they differ: [parseTarget] rejects it, the
    first revision took it whole as the platform.) *)
Theorem parseTarget_agrees_with_split bots target :
  (∀ q, q ∈ map Bot.platform bots → has_colon q = false) →
  has_colon target = true →
  parseTarget bots target = Some (split_address target).
Proof.
  intros Hfree (p & c & -> & Hp)%has_colon_split.
  rewrite (split_address_append p c Hp).
  unfold parseTarget.
  destruct (match_platform _ (platforms bots)) as [[q d]|] eqn:E.
  - apply match_platform_Some in E as (Hin & _ & Hfmt). simpl in *.
    apply platforms_elem, Hfree in Hin.
    by destruct (colon_free_prefix_inj q p d c Hin Hp Hfmt) as [-> ->].
  - rewrite (indexOf_no_colon_prefix p c Hp), slice_to_append. do 2 f_equal.
    replace (String.length p + 1)%nat with (String.length (p +:+ ":"))
      by (rewrite length_append; reflexivity).
    rewrite <- append_assoc. apply slice_from_append.
Qed.

(** A witness: [discord:12:34] with the usual platform names. *)
Lemma parseTarget_agrees_with_split_witness :
  parseTarget (bots demo_env) "discord:12:34" = Some (Parsed.mk "discord" "12:34")
  ∧ split_address "nowhere" = Parsed.mk "nowhere" ""
  ∧ parseTarget (bots demo_env) "nowhere" = None.
Proof.
  split; [|split; reflexivity].
  apply (parseTarget_agrees_with_split (bots demo_env) "discord:12:34"); [|reflexivity].
  intros q Hq. simpl in Hq.
  apply elem_of_cons in Hq as [->|Hq]; [reflexivity|].
  apply elem_of_cons in Hq as [->|Hq]; [reflexivity|].
  by apply elem_of_nil in Hq.
Defined.

(** ** Target resolver *)

Lemma getTargets_config env session w :
  mode_database env = false →
  getTargets env session w = (Ok (rule_targets env session), w).
Proof. unfold getTargets. by intros ->. Qed.

Lemma omap_length_le {A B} (f : A → option B) (l : list A) :
  (length (omap f l) ≤ length l)%nat.
Proof.
  induction l as [|x l IH]; [done|].
  change (omap f (x :: l)) with (match f x with Some y => y :: omap f l | None => omap f l end).
  destruct (f x); simpl; lia.
Qed.

(** X4. In config mode the resolver reads no table and changes nothing;
    its targets are exactly the decoded rules whose source is the
    session's channel, in the order of the rules, each formatting back to
    its rule's address and carrying its rule's bot and guild; rules whose
    address does not parse are dropped. *)
Theorem config_targets_from_rules env session w :
  mode_database env = false →
  getTargets env session w = (Ok (rule_targets env session), w)
  ∧ (∀ t, t ∈ rule_targets env session ↔
          ∃ rule parsed,
            rule ∈ default [] (rules env)
            ∧ Rule.source rule = Session.cid session
            ∧ parseTarget (bots env) (Rule.target rule) = Some parsed
            ∧ t = with_self parsed (Rule.selfId rule) (Rule.guildId rule))
  ∧ (∀ t, t ∈ rule_targets env session →
          ∃ rule, rule ∈ default [] (rules env)
                  ∧ formatTarget t = Rule.target rule
                  ∧ ForwardTarget.selfId t = Rule.selfId rule
                  ∧ ForwardTarget.guildId t = Rule.guildId rule)
  ∧ (length (rule_targets env session) ≤ length (default [] (rules env)))%nat.
Proof.
  intros Hmode.
  assert (Hchar : ∀ t, t ∈ rule_targets env session ↔
          ∃ rule parsed,
            rule ∈ default [] (rules env)
            ∧ Rule.source rule = Session.cid session
            ∧ parseTarget (bots env) (Rule.target rule) = Some parsed
            ∧ t = with_self parsed (Rule.selfId rule) (Rule.guildId rule)).
  { intros t. unfold rule_targets. rewrite list_elem_of_omap. split.
    - intros (rule & [Hsrc Hin]%list_elem_of_filter & Hp).
      destruct (parseTarget (bots env) (Rule.target rule)) as [parsed|] eqn:E;
        [|discriminate].
      exists rule, parsed. by inversion Hp.
    - intros (rule & parsed & Hin & Hsrc & Hp & ->). exists rule.
      split; [by apply list_elem_of_filter|]. by rewrite Hp. }
  split_and!; [by apply getTargets_config|exact Hchar| |].
  - intros t (rule & parsed & Hin & _ & Hp & ->)%Hchar.
    exists rule. split_and!; try done. by apply parseTarget_Some in Hp.
  - unfold rule_targets. etrans; [apply omap_length_le|apply length_filter].
Qed.

(** A witness: the three rules of [demo_env] for [onebot:100]. *)
Lemma config_targets_from_rules_witness :
  getTargets demo_env demo_session blank
  = (Ok [target_200; target_bad; target_300], blank).
Proof. apply (config_targets_from_rules demo_env demo_session blank). reflexivity. Defined.

Lemma getTargets_table env session w :
  table_session env session →
  getTargets env session w = (Ok (stored (row_key session) w), w).
Proof.
  intros (Hmode & Hfwd & Hcid & Hread & _).
  unfold getTargets, database_get, stored. rewrite Hmode, Hfwd, Hcid.
  fold (row_key session). rewrite Hread. run.
  by destruct (db w !! row_key session) as [[fwd|]|].
Qed.

Lemma save_targets_table env session targets w :
  cid_truthy (getChannelId session) = true →
  db_write_fault env (row_key session) = None →
  save_targets env session targets w = (Ok tt, with_row (row_key session) targets w).
Proof.
  intros Hcid Hwrite. unfold save_targets, database_upsert. rewrite Hcid.
  fold (row_key session). by rewrite Hwrite.
Qed.

Lemma stored_with_row key targets w : stored key (with_row key targets w) = targets.
Proof. unfold stored, with_row. simpl. by rewrite lookup_insert_eq. Qed.

Lemma stored_with_row_ne key key' targets w :
  key ≠ key' → stored key' (with_row key targets w) = stored key' w.
Proof. intros H. unfold stored, with_row. simpl. by rewrite lookup_insert_ne. Qed.

(** X5. What the commands save is what the resolver reads back: after
    a write of [targets] for a session's channel, any session of the same
    channel that comes without its row attached resolves to [targets],
    and the rows of other channels resolve as before. *)
Theorem saved_targets_are_resolved env session session' targets w :
  table_session env session →
  table_session env session' →
  let saved := (save_targets env session targets w).2 in
  (row_key session' = row_key session →
   getTargets env session' saved = (Ok targets, saved))
  ∧ (row_key session' ≠ row_key session →
     getTargets env session' saved = (Ok (stored (row_key session') w), saved)).
Proof.
  intros Hs Hs'. simpl.
  destruct Hs as (_ & _ & Hcid & _ & Hwrite).
  rewrite (save_targets_table env session targets w Hcid Hwrite). cbn [snd].
  rewrite (getTargets_table env session' _ Hs'). split.
  - intros ->. by rewrite stored_with_row.
  - intros Hne. by rewrite stored_with_row_ne.
Qed.

(** A witness: targets saved for [onebot:100] are resolved for the next
    message of [onebot:100]. *)
Lemma saved_targets_are_resolved_witness :
  let saved := (save_targets db_env demo_session [target_200] blank).2 in
  getTargets db_env demo_session saved = (Ok [target_200], saved).
Proof.
  apply (saved_targets_are_resolved db_env demo_session demo_session [target_200] blank);
    [by repeat split..|reflexivity].
Defined.

(** ** Commands *)

Lemma findIndex_Some {A} (pred : A → bool) (l : list A) (i : nat) :
  findIndex pred l = Some i →
  ∃ x, l !! i = Some x ∧ pred x = true
       ∧ ∀ j y, (j < i)%nat → l !! j = Some y → pred y = false.
Proof.
  revert i; induction l as [|x l IH]; intros i; simpl; [discriminate|].
  destruct (pred x) eqn:E.
  - intros [= <-]. exists x. split_and!; [done..|]. intros j y Hj. lia.
  - destruct (findIndex pred l) as [i'|]; simpl; [|discriminate].
    intros [= <-]. destruct (IH i' eq_refl) as (y & Hy & Hp & Hbefore).
    exists y. split_and!; [done..|].
    intros [|j] z Hj; simpl; [by intros [= <-]|]. apply Hbefore. lia.
Qed.

Lemma findIndex_None {A} (pred : A → bool) l :
  findIndex pred l = None ↔ existsb pred l = false.
Proof.
  induction l as [|x l IH]; simpl; [done|].
  destruct (pred x); simpl; [split; discriminate|].
  rewrite <- IH. destruct (findIndex pred l); simpl; split; congruence.
Qed.

Lemma findIndex_app_last {A} (pred : A → bool) l x :
  existsb pred l = false → pred x = true →
  findIndex pred (l ++ [x]) = Some (length l).
Proof.
  induction l as [|y l IH]; simpl; intros Hl Hx; [by rewrite Hx|].
  apply orb_false_iff in Hl as [-> Hl]. by rewrite IH.
Qed.

Lemma same_channel_self parsed selfId guildId :
  same_channel parsed (with_self parsed selfId guildId) = true.
Proof. unfold same_channel, with_self. simpl. by rewrite !bool_decide_eq_true_2. Qed.

Lemma filter_delete_matching {A} (pred : A → bool) (l : list A) (i : nat) x :
  l !! i = Some x → pred x = true →
  filter (λ y, pred y = false) (delete i l) = filter (λ y, pred y = false) l.
Proof.
  revert i; induction l as [|y l IH]; intros [|i]; simpl; try done.
  - intros [= ->] Hx. rewrite filter_cons_False; [done|]. congruence.
  - intros Hi Hx. rewrite !filter_cons. by rewrite (IH i Hi Hx).
Qed.

(** The successful [forward.add], run. *)
Lemma cmd_add_run env session id parsed selfId targets w w1 :
  parseTarget (bots env) id = Some parsed →
  findBot (bots env) (Parsed.platform parsed) = Some selfId →
  selfId ≠ "" →
  getTargets env session w = (Ok targets, w1) →
  existsb (same_channel parsed) targets = false →
  cid_truthy (getChannelId session) = true →
  db_write_fault env (row_key session) = None →
  cmd_add env session id w
  = (Ok (TextUpdated (Some id)),
     with_row (row_key session) (targets ++ [with_self parsed selfId None]) w1).
Proof.
  intros Hp Hbot Hself Hget Hnew Hcid Hwrite.
  assert (Hfmt : formatTarget (with_self parsed selfId None) = id)
    by (by apply parseTarget_Some in Hp).
  unfold cmd_add. rewrite Hp, Hbot.
  destruct selfId; [done|]. cbn [truthy].
  unfold bind at 1. rewrite Hget, Hnew.
  unfold bind. rewrite (save_targets_table env session _ w1 Hcid Hwrite).
  unfold ret. by rewrite Hfmt.
Qed.

(** X6. A successful [forward.add]: for an address that parses to a
    platform with a connected bot and is not among the channel's targets,
    the command writes the targets with the new one appended, carrying
    the first bot of the platform, and answers "updated" with exactly the
    address it was given; the new target formats to that address, and
    the rows of other channels are not touched. *)
Theorem cmd_add_appends env session id parsed selfId targets w w1 :
  parseTarget (bots env) id = Some parsed →
  findBot (bots env) (Parsed.platform parsed) = Some selfId →
  selfId ≠ "" →
  getTargets env session w = (Ok targets, w1) →
  existsb (same_channel parsed) targets = false →
  cid_truthy (getChannelId session) = true →
  db_write_fault env (row_key session) = None →
  cmd_add env session id w
  = (Ok (TextUpdated (Some id)),
     with_row (row_key session) (targets ++ [with_self parsed selfId None]) w1)
  ∧ formatTarget (with_self parsed selfId None) = id
  ∧ stored (row_key session) (cmd_add env session id w).2
    = targets ++ [ForwardTarget.mk (Parsed.platform parsed) (Parsed.channelId parsed)
                                   selfId None]
  ∧ ∀ key, key ≠ row_key session → db (cmd_add env session id w).2 !! key = db w !! key.
Proof.
  intros Hp Hbot Hself Hget Hnew Hcid Hwrite.
  rewrite (cmd_add_run env session id parsed selfId targets w w1) by done.
  cbn [snd]. split_and!; [done| | |].
  - by apply parseTarget_Some in Hp.
  - by rewrite stored_with_row.
  - intros key Hne. unfold with_row. cbn [db]. rewrite lookup_insert_ne by done.
    destruct (getTargets_effect env session w) as (ts & ls & Hget' & _).
    rewrite Hget in Hget'. by inversion Hget'.
Qed.

(** A witness: [forward.add discord:200] in [onebot:100], whose row is
    empty. *)
Lemma cmd_add_appends_witness :
  cmd_add db_env demo_session "discord:200" blank
  = (Ok (TextUpdated (Some "discord:200")),
     with_row (row_key demo_session) [target_200] blank).
Proof.
  apply (cmd_add_appends db_env demo_session "discord:200"
           (Parsed.mk "discord" "200") "B1" [] blank blank);
    (reflexivity || discriminate).
Defined.

(** X7. [forward.add] is idempotent: for a session that reads the
    table itself, adding the address a second time answers "unchanged"
    with the address and changes nothing, whether the first command added
    it or found it there already. *)
Theorem cmd_add_twice env session id parsed selfId w :
  table_session env session →
  parseTarget (bots env) id = Some parsed →
  findBot (bots env) (Parsed.platform parsed) = Some selfId →
  selfId ≠ "" →
  let once := (cmd_add env session id w).2 in
  cmd_add env session id once = (Ok (TextUnchanged id), once).
Proof.
  intros Hs Hp Hbot Hself. simpl.
  pose proof Hs as (_ & _ & Hcid & _ & Hwrite).
  assert (Hfmt : formatTarget (with_self parsed selfId None) = id)
    by (by apply parseTarget_Some in Hp).
  assert (Hpresent : ∀ w',
            existsb (same_channel parsed) (stored (row_key session) w') = true →
            cmd_add env session id w' = (Ok (TextUnchanged id), w')).
  { intros w' Hex. unfold cmd_add. rewrite Hp, Hbot.
    destruct selfId; [done|]. cbn [truthy].
    unfold bind. rewrite (getTargets_table env session w' Hs), Hex.
    unfold ret. by rewrite Hfmt. }
  destruct (existsb (same_channel parsed) (stored (row_key session) w)) eqn:Hex.
  - rewrite (Hpresent w Hex). cbn [snd]. by apply Hpresent.
  - rewrite (cmd_add_run env session id parsed selfId _ w w Hp Hbot Hself
               (getTargets_table env session w Hs) Hex Hcid Hwrite).
    cbn [snd]. apply Hpresent. rewrite stored_with_row, existsb_app. simpl.
    by rewrite same_channel_self, orb_true_r.
Qed.

(** A witness: [forward.add discord:200] twice in [onebot:100]. *)
Lemma cmd_add_twice_witness :
  let once := (cmd_add db_env demo_session "discord:200" blank).2 in
  stored (row_key demo_session) once = [target_200]
  ∧ cmd_add db_env demo_session "discord:200" once
    = (Ok (TextUnchanged "discord:200"), once).
Proof.
  split; [reflexivity|].
  apply (cmd_add_twice db_env demo_session "discord:200" (Parsed.mk "discord" "200") "B1");
    [by repeat split|reflexivity|reflexivity|discriminate].
Defined.

(** X8. [forward.add] answers "no bot" and changes nothing when the
    address has no colon, and when no bot is connected for the platform
    it parses to. *)
Theorem cmd_add_no_bot env session id w :
  has_colon id = false
  ∨ (∀ parsed, parseTarget (bots env) id = Some parsed →
               Parsed.platform parsed ∉ map Bot.platform (bots env)) →
  cmd_add env session id w = (Ok TextNoBot, w).
Proof.
  intros H. unfold cmd_add.
  destruct (parseTarget (bots env) id) as [parsed|] eqn:Hp; [|done].
  destruct H as [H|H].
  { apply (parseTarget_None (bots env)) in H. congruence. }
  specialize (H parsed eq_refl).
  assert (findBot (bots env) (Parsed.platform parsed) = None) as ->; [|done].
  clear Hp. induction (bots env) as [|b bs IH]; simpl in *; [done|].
  apply not_elem_of_cons in H as [Hne Hbs].
  destruct (decide (Bot.platform b = Parsed.platform parsed)); [congruence|].
  by apply IH.
Qed.

(** A witness: no bot is connected for [telegram]. *)
Lemma cmd_add_no_bot_witness :
  cmd_add db_env demo_session "telegram:5" blank = (Ok TextNoBot, blank)
  ∧ cmd_add db_env demo_session "discord" blank = (Ok TextNoBot, blank).
Proof.
  split.
  - apply cmd_add_no_bot. right. intros parsed [= <-]. simpl.
    rewrite !not_elem_of_cons. split_and!; try discriminate. apply not_elem_of_nil.
  - apply cmd_add_no_bot. by left.
Defined.

(** X9. [forward.remove] with an address that parses: when a target of
    the channel has the parsed platform and channel id, the first such
    target is taken out, every other target stays in place, the shortened
    list is written and the answer is "updated"; when none has, nothing
    is written and the answer is "unchanged". *)
Theorem cmd_remove_first_match env session id parsed targets w w1 :
  parseTarget (bots env) id = Some parsed →
  getTargets env session w = (Ok targets, w1) →
  cid_truthy (getChannelId session) = true →
  db_write_fault env (row_key session) = None →
  match findIndex (same_channel parsed) targets with
  | Some index =>
      cmd_remove env session id w
      = (Ok (TextUpdated (Some id)),
         with_row (row_key session) (delete index targets) w1)
      ∧ (∃ t, targets !! index = Some t ∧ same_channel parsed t = true)
      ∧ (∀ j t, (j < index)%nat → targets !! j = Some t → same_channel parsed t = false)
      ∧ filter (λ t, same_channel parsed t = false) (delete index targets)
        = filter (λ t, same_channel parsed t = false) targets
      ∧ S (length (delete index targets)) = length targets
  | None =>
      cmd_remove env session id w = (Ok (TextUnchanged id), w1)
      ∧ existsb (same_channel parsed) targets = false
  end.
Proof.
  intros Hp Hget Hcid Hwrite.
  destruct (findIndex (same_channel parsed) targets) as [index|] eqn:Hidx.
  - destruct (findIndex_Some _ _ _ Hidx) as (t & Ht & Hsame & Hbefore).
    split_and!.
    + unfold cmd_remove. rewrite Hp. unfold bind at 1. rewrite Hget, Hidx.
      unfold bind. by rewrite (save_targets_table env session _ w1 Hcid Hwrite).
    + by exists t.
    + done.
    + by apply (filter_delete_matching _ _ _ t).
    + rewrite length_delete by done. apply lookup_lt_Some in Ht. lia.
  - split; [|by apply findIndex_None].
    unfold cmd_remove. rewrite Hp. unfold bind. by rewrite Hget, Hidx.
Qed.

(** A witness: [forward.remove discord:bad] where the channel has the
    three targets of the scenario attached. *)
Lemma cmd_remove_first_match_witness :
  cmd_remove db_env demo_attached "discord:bad" blank
  = (Ok (TextUpdated (Some "discord:bad")),
     with_row (row_key demo_attached) [target_200; target_300] blank).
Proof.
  exact (proj1 (cmd_remove_first_match db_env demo_attached "discord:bad"
                  (Parsed.mk "discord" "bad")
                  [target_200; target_bad; target_300] blank blank
                  eq_refl eq_refl eq_refl eq_refl)).
Defined.

(** X10. [forward.remove] undoes [forward.add]: for a session that
    reads the table itself and an address that was not among the
    channel's targets, adding it and then removing it answers "updated"
    twice and leaves the channel with the targets it had. *)
Theorem cmd_add_then_remove env session id parsed selfId w :
  table_session env session →
  parseTarget (bots env) id = Some parsed →
  findBot (bots env) (Parsed.platform parsed) = Some selfId →
  selfId ≠ "" →
  existsb (same_channel parsed) (stored (row_key session) w) = false →
  let added := cmd_add env session id w in
  let removed := cmd_remove env session id added.2 in
  added.1 = Ok (TextUpdated (Some id))
  ∧ removed.1 = Ok (TextUpdated (Some id))
  ∧ stored (row_key session) removed.2 = stored (row_key session) w
  ∧ ∀ key, key ≠ row_key session → db removed.2 !! key = db w !! key.
Proof.
  intros Hs Hp Hbot Hself Hnew. simpl.
  pose proof Hs as (_ & _ & Hcid & _ & Hwrite).
  rewrite (cmd_add_run env session id parsed selfId _ w w Hp Hbot Hself
             (getTargets_table env session w Hs) Hnew Hcid Hwrite).
  cbn [fst snd].
  set (targets := stored (row_key session) w) in *.
  set (entry := with_self parsed selfId None).
  set (w1 := with_row (row_key session) (targets ++ [entry]) w).
  assert (Hidx : findIndex (same_channel parsed) (targets ++ [entry])
                 = Some (length targets)).
  { apply findIndex_app_last; [done|apply same_channel_self]. }
  assert (Hrm : cmd_remove env session id w1
                = (Ok (TextUpdated (Some id)),
                   with_row (row_key session) targets w1)).
  { assert (Hst : stored (row_key session) w1 = targets ++ [entry])
      by apply stored_with_row.
    unfold cmd_remove. rewrite Hp. unfold bind at 1.
    rewrite (getTargets_table env session w1 Hs), Hst, Hidx.
    unfold bind. rewrite (save_targets_table env session _ w1 Hcid Hwrite).
    by rewrite delete_middle, app_nil_r. }
  rewrite Hrm. cbn [fst snd]. split_and!; [done..| |].
  - by rewrite stored_with_row.
  - intros key Hne. unfold with_row, w1, with_row. simpl.
    by rewrite !lookup_insert_ne.
Qed.

(** A witness: add and remove [discord:200] in [onebot:100]. *)
Lemma cmd_add_then_remove_witness :
  let added := cmd_add db_env demo_session "discord:200" blank in
  stored (row_key demo_session) added.2 = [target_200]
  ∧ stored (row_key demo_session) (cmd_remove db_env demo_session "discord:200" added.2).2
    = [].
Proof.
  split; [reflexivity|].
  apply (cmd_add_then_remove db_env demo_session "discord:200" (Parsed.mk "discord" "200")
           "B1" blank);
    [by repeat split|reflexivity|reflexivity|discriminate|reflexivity].
Defined.

Lemma middleware_sent_forward env session w targets w1 :
  quoted_entry session w = None →
  getTargets env session w = (Ok targets, w1) →
  sent (middleware env session w).2 = sent w ++ fan_deliveries env session targets.
Proof.
  intros Hq Hget.
  destruct (middleware_forward env session w Hq) as (targets' & ls & Hget' & ->).
  rewrite Hget in Hget'. inversion Hget'; subst. cbn [snd sent].
  by rewrite puts_sent.
Qed.

Lemma getTargets_sees env session w :
  sees_row env session w →
  getTargets env session w = (Ok (stored (row_key session) w), w).
Proof.
  intros (Hmode & [Hfwd|(Hfwd & Hcid & Hread)]).
  - unfold getTargets. by rewrite Hmode, Hfwd.
  - unfold getTargets, database_get, stored. rewrite Hmode, Hfwd, Hcid.
    fold (row_key session). rewrite Hread. run.
    by destruct (db w !! row_key session) as [[fwd|]|].
Qed.

(** X11. [forward.clear] stops the forwarding: with a usable channel id
    and a working write the command writes the empty list and answers
    "updated"; after it, for any session of that channel that sees the
    row as it is stored (attached by the host, or read by the session),
    [forward.list] answers "empty" and a message that is no reply is
    relayed nowhere, whatever targets were stored before. *)
Theorem cmd_clear_stops_forwarding env session lister message w :
  cid_truthy (getChannelId session) = true →
  db_write_fault env (row_key session) = None →
  let cleared := (cmd_clear env session w).2 in
  sees_row env lister cleared → row_key lister = row_key session →
  sees_row env message cleared → row_key message = row_key session →
  cmd_clear env session w = (Ok (TextUpdated None), with_row (row_key session) [] w)
  ∧ cmd_list env lister cleared = (Ok TextEmpty, cleared)
  ∧ (quoted_entry message cleared = None →
     sent (middleware env message cleared).2 = sent w).
Proof.
  intros Hcid Hwrite. cbv zeta.
  assert (Hclear : cmd_clear env session w
                   = (Ok (TextUpdated None), with_row (row_key session) [] w)).
  { unfold cmd_clear, bind. by rewrite (save_targets_table env session [] w Hcid Hwrite). }
  rewrite Hclear. cbn [snd]. intros Hl Hlk Hm Hmk. split_and!; [done| |].
  - unfold cmd_list, bind.
    by rewrite (getTargets_sees env lister _ Hl), Hlk, stored_with_row.
  - intros Hq.
    rewrite (middleware_sent_forward env message _ []
               (with_row (row_key session) [] w) Hq).
    + simpl. apply app_nil_r.
    + rewrite (getTargets_sees env message _ Hm), Hmk. by rewrite stored_with_row.
Qed.

(** A witness: after [forward.add discord:200] and [forward.clear] in
    [onebot:100], a message there, which the host attaches the emptied
    row to, is sent nowhere. *)
Lemma cmd_clear_stops_forwarding_witness :
  let added := (cmd_add db_env demo_session "discord:200" blank).2 in
  let cleared := (cmd_clear db_env demo_session added).2 in
  Delivery.channelId <$> sent (middleware db_env (demo_with_row [target_200]) added).2
  = [CidString "200"]
  ∧ sent (middleware db_env (demo_with_row []) cleared).2 = [].
Proof.
  split; [reflexivity|].
  apply (cmd_clear_stops_forwarding db_env demo_session (demo_with_row [])
           (demo_with_row [])
           (cmd_add db_env demo_session "discord:200" blank).2);
    try reflexivity; split; try reflexivity; by left.
Defined.

(** X12. [forward.add] takes effect: after a successful add by a
    session that sees the row as it is stored, a message of that channel
    that sees the new row and is no reply is relayed to the targets
    stored before and then to the new one, through the bot the command
    chose. *)
Theorem cmd_add_takes_effect env session message id parsed selfId w :
  sees_row env session w →
  cid_truthy (getChannelId session) = true →
  db_write_fault env (row_key session) = None →
  parseTarget (bots env) id = Some parsed →
  findBot (bots env) (Parsed.platform parsed) = Some selfId →
  selfId ≠ "" →
  existsb (same_channel parsed) (stored (row_key session) w) = false →
  let added := (cmd_add env session id w).2 in
  sees_row env message added → row_key message = row_key session →
  quoted_entry message added = None →
  sent (middleware env message added).2
  = sent w
    ++ fan_deliveries env message (stored (row_key session) w)
    ++ relay_deliveries env message
         (RelayEntry.mk (Parsed.platform parsed) (CidString (Parsed.channelId parsed))
                        selfId None).
Proof.
  intros Hs Hcid Hwrite Hp Hbot Hself Hnew. cbv zeta.
  rewrite (cmd_add_run env session id parsed selfId _ w w Hp Hbot Hself
             (getTargets_sees env session w Hs) Hnew Hcid Hwrite).
  cbn [snd]. intros Hm Hkey Hq.
  rewrite (middleware_sent_forward env message _
             (stored (row_key session) w ++ [with_self parsed selfId None])
             (with_row (row_key session)
                (stored (row_key session) w ++ [with_self parsed selfId None]) w) Hq).
  - rewrite fan_deliveries_app. unfold fan_deliveries at 2. simpl.
    by rewrite app_nil_r.
  - rewrite (getTargets_sees env message _ Hm), Hkey. by rewrite stored_with_row.
Qed.

(** A witness: after [forward.add discord:200] in [onebot:100], the
    message ["hi"] of bob, with the new row attached, is sent to
    [discord:200] by the bot [B1]. *)
Lemma cmd_add_takes_effect_witness :
  sent (middleware db_env (demo_with_row [target_200])
          (cmd_add db_env (demo_with_row []) "discord:200" blank).2).2
  = [Delivery.mk (Bot.mk "discord" "B1") (CidString "200") [Text "bob: "; Text "hi"] None].
Proof.
  apply (cmd_add_takes_effect db_env (demo_with_row []) (demo_with_row [target_200])
           "discord:200" (Parsed.mk "discord" "200") "B1" blank);
    try reflexivity; try discriminate; split; try reflexivity; by left.
Defined.

Lemma getTargets_no_channel env session w :
  cid_truthy (getChannelId session) = false →
  ∃ targets, getTargets env session w = (Ok targets, w).
Proof.
  intros Hcid. unfold getTargets. destruct (mode_database env); [|by eexists].
  destruct (Session.channel_forward session); [by eexists|].
  rewrite Hcid. by eexists.
Qed.

(** X13. Without a usable channel id no command writes, reads or logs
    anything, and none raises; [forward.clear] answers "updated" all the
    same, and so does [forward.add] for a new address with a connected
    bot. *)
Theorem commands_without_channel_id env session w :
  cid_truthy (getChannelId session) = false →
  cmd_clear env session w = (Ok (TextUpdated None), w)
  ∧ (∀ id, ∃ reply, cmd_add env session id w = (Ok reply, w))
  ∧ (∀ id, ∃ reply, cmd_remove env session id w = (Ok reply, w))
  ∧ (∃ reply, cmd_list env session w = (Ok reply, w))
  ∧ (∀ id parsed selfId,
        parseTarget (bots env) id = Some parsed →
        findBot (bots env) (Parsed.platform parsed) = Some selfId → selfId ≠ "" →
        (∀ targets, getTargets env session w = (Ok targets, w) →
                    existsb (same_channel parsed) targets = false) →
        cmd_add env session id w = (Ok (TextUpdated (Some id)), w)).
Proof.
  intros Hcid.
  destruct (getTargets_no_channel env session w Hcid) as (targets & Hget).
  assert (Hsave : ∀ ts, save_targets env session ts w = (Ok tt, w)).
  { intros ts. unfold save_targets. by rewrite Hcid. }
  split_and!.
  - unfold cmd_clear, bind. by rewrite Hsave.
  - intros id. unfold cmd_add.
    destruct (parseTarget (bots env) id) as [parsed|]; [|by eexists].
    destruct (findBot (bots env) _) as [selfId|]; [|by eexists].
    destruct (truthy selfId); [|by eexists].
    unfold bind at 1. rewrite Hget.
    destruct (existsb _ targets); [by eexists|].
    unfold bind. rewrite Hsave. by eexists.
  - intros id. unfold cmd_remove.
    destruct (parseTarget (bots env) id) as [parsed|]; [|by eexists].
    unfold bind at 1. rewrite Hget.
    destruct (findIndex _ targets); [|by eexists].
    unfold bind. rewrite Hsave. by eexists.
  - unfold cmd_list, bind. rewrite Hget. destruct targets; by eexists.
  - intros id parsed selfId Hp Hbot Hself Hnew.
    assert (Hfmt : formatTarget (with_self parsed selfId None) = id)
      by (by apply parseTarget_Some in Hp).
    unfold cmd_add. rewrite Hp, Hbot. destruct selfId; [done|]. cbn [truthy].
    unfold bind at 1. rewrite Hget, (Hnew _ Hget).
    unfold bind. rewrite Hsave. unfold ret. by rewrite Hfmt.
Qed.

(** A witness: a session with no channel id adds [discord:200]; the
    answer is "updated" and the table stays empty. *)
Lemma commands_without_channel_id_witness :
  cmd_add db_env demo_no_channel "discord:200" blank
  = (Ok (TextUpdated (Some "discord:200")), blank)
  ∧ cmd_clear db_env demo_no_channel blank = (Ok (TextUpdated None), blank).
Proof.
  destruct (commands_without_channel_id db_env demo_no_channel blank eq_refl)
    as (Hclear & _ & _ & _ & Hadd).
  split; [|exact Hclear].
  apply (Hadd "discord:200" (Parsed.mk "discord" "200") "B1");
    [reflexivity|reflexivity|discriminate|].
  by intros targets [= <-].
Defined.

(** X14. The only way a command (add, remove, clear, list) raises is a
    failed write of the session's row, and then the channel table is as
    it was: no command leaves a partial write. *)
Theorem commands_raise_only_on_write env session w e w' :
  (∃ id, cmd_add env session id w = (Throw e, w'))
  ∨ (∃ id, cmd_remove env session id w = (Throw e, w'))
  ∨ cmd_clear env session w = (Throw e, w')
  ∨ cmd_list env session w = (Throw e, w') →
  db w' = db w
  ∧ cid_truthy (getChannelId session) = true
  ∧ db_write_fault env (row_key session) = Some e.
Proof.
  assert (Hsave : ∀ ts w0, save_targets env session ts w0 = (Throw e, w') →
            w' = w0 ∧ cid_truthy (getChannelId session) = true
            ∧ db_write_fault env (row_key session) = Some e).
  { intros ts w0. unfold save_targets, database_upsert. fold (row_key session).
    destruct (cid_truthy (getChannelId session)); [|discriminate].
    destruct (db_write_fault env (row_key session)) as [e'|]; [|discriminate].
    unfold throw. by intros [= -> ->]. }
  destruct (getTargets_effect env session w) as (targets & ls & Hget & _).
  assert (Hbind : ∀ (ts : list ForwardTarget.t) (r : Reply) w0,
            (save_targets env session ts ;; ret r) w0 = (Throw e, w') →
            save_targets env session ts w0 = (Throw e, w')).
  { intros ts r w0. unfold bind, ret.
    destruct (save_targets env session ts w0) as [[[]|e'] w'']; intros H;
      [discriminate H|by inversion H]. }
  intros [(id & H)|[(id & H)|[H|H]]].
  - unfold cmd_add in H.
    destruct (parseTarget (bots env) id) as [parsed|]; [|discriminate].
    destruct (findBot (bots env) _) as [selfId|]; [|discriminate].
    destruct (truthy selfId); [|discriminate].
    unfold bind at 1 in H. rewrite Hget in H.
    destruct (existsb _ targets); [discriminate|].
    apply Hbind, Hsave in H as (-> & ? & ?). done.
  - unfold cmd_remove in H.
    destruct (parseTarget (bots env) id) as [parsed|]; [|discriminate].
    unfold bind at 1 in H. rewrite Hget in H.
    destruct (findIndex _ targets); [|discriminate].
    apply Hbind, Hsave in H as (-> & ? & ?). done.
  - unfold cmd_clear in H. apply Hbind, Hsave in H as (-> & ? & ?). done.
  - unfold cmd_list, bind in H. rewrite Hget in H. by destruct targets.
Qed.

(** A witness: [forward.clear] on a table that cannot be written. *)
Lemma commands_raise_only_on_write_witness :
  cmd_clear db_readonly_env demo_session blank = (Throw "read-only", blank)
  ∧ db_write_fault db_readonly_env (row_key demo_session) = Some "read-only".
Proof.
  split; [reflexivity|].
  apply (commands_raise_only_on_write db_readonly_env demo_session blank
           "read-only" blank).
  right; right; left. reflexivity.
Defined.

(** X15. A failed read makes [forward.add] forget: when the row cannot
    be read the resolver answers with no target, so the command takes
    the address for new and writes a list that holds it alone, whatever
    the row held. *)
Theorem cmd_add_after_failed_read env session id parsed selfId e w :
  mode_database env = true →
  Session.channel_forward session = None →
  cid_truthy (getChannelId session) = true →
  db_read_fault env (row_key session) = Some e →
  db_write_fault env (row_key session) = None →
  parseTarget (bots env) id = Some parsed →
  findBot (bots env) (Parsed.platform parsed) = Some selfId →
  selfId ≠ "" →
  cmd_add env session id w
  = (Ok (TextUpdated (Some id)),
     with_row (row_key session) [with_self parsed selfId None]
       (add_log (WarnFetchFailed e) w)).
Proof.
  intros Hmode Hfwd Hcid Hread Hwrite Hp Hbot Hself.
  assert (Hget : getTargets env session w = (Ok [], add_log (WarnFetchFailed e) w)).
  { unfold getTargets, database_get. fold (row_key session).
    by rewrite Hmode, Hfwd, Hcid, Hread. }
  by rewrite (cmd_add_run env session id parsed selfId [] w _ Hp Hbot Hself
               Hget eq_refl Hcid Hwrite).
Qed.

(** A witness: the row of [onebot:100] holds two targets and cannot be
    read; after [forward.add discord:300] it holds that one alone. *)
Lemma cmd_add_after_failed_read_witness :
  let w := with_row (row_key demo_session) [target_200; target_bad] blank in
  stored (row_key demo_session) (cmd_add demo_db_env demo_session "discord:300" w).2
  = [target_300].
Proof.
  cbv zeta.
  rewrite (cmd_add_after_failed_read demo_db_env demo_session "discord:300"
             (Parsed.mk "discord" "300") "B1" "db down"
             (with_row (row_key demo_session) [target_200; target_bad] blank)
             eq_refl eq_refl eq_refl eq_refl eq_refl eq_refl eq_refl
             ltac:(discriminate)).
  reflexivity.
Defined.

(** ** Middleware and pipeline *)

Lemma relay_empty_content env session entry :
  Session.content session = [] →
  relay_deliveries env session entry = []
  ∧ relay_ids env session entry = []
  ∧ relay_log env session entry = [].
Proof.
  intros Hc. unfold relay_deliveries, relay_ids, relay_log, sendRelay. by rewrite Hc.
Qed.

Lemma fan_empty_content env session targets :
  Session.content session = [] →
  fan_deliveries env session targets = []
  ∧ fan_ids env session targets = []
  ∧ fan_log env session targets = [].
Proof.
  intros Hc. unfold fan_deliveries, fan_ids, fan_log.
  induction targets as [|t ts (IHd & IHi & IHl)]; [done|]. simpl.
  destruct (relay_empty_content env session (entry_of_target t) Hc) as (-> & -> & ->).
  by rewrite IHd, IHi, IHl.
Qed.

(** X16. A message with no content is relayed nowhere and registers
    nothing, as a reply and as a forward-candidate alike: the sends, the
    correlation map and the timers stay as they are. *)
Theorem empty_message_relays_nothing env session w :
  Session.content session = [] →
  let after := (middleware env session w).2 in
  sent after = sent w ∧ relayMap after = relayMap w ∧ timers after = timers w
  ∧ db after = db w.
Proof.
  intros Hc. simpl.
  destruct (quoted_entry session w) as [entry|] eqn:Hq.
  - rewrite (middleware_reply env session w entry Hq), sendRelay_effect. cbn [snd].
    destruct (relay_empty_content env session entry Hc) as (-> & -> & ->).
    simpl. by rewrite app_nil_r.
  - destruct (middleware_forward env session w Hq) as (targets & ls & _ & ->).
    destruct (fan_empty_content env session targets Hc) as (-> & -> & ->).
    simpl. by rewrite app_nil_r.
Qed.

(** A witness: the empty message of [onebot:100], which has three
    targets. *)
Lemma empty_message_relays_nothing_witness :
  sent (middleware demo_env demo_empty blank).2 = []
  ∧ nextCalls (middleware demo_env demo_empty blank).2 = 1%nat.
Proof.
  split; [|reflexivity].
  apply (empty_message_relays_nothing demo_env demo_empty blank). reflexivity.
Defined.

(** X17. The middleware raises only what the continuation raises: if it
    ends in an exception, the message was a forward-candidate, the
    continuation was called and raised that exception, and the relays to
    the resolved targets were made all the same. *)
Theorem middleware_raises_only_from_next env session w e w' :
  middleware env session w = (Throw e, w') →
  next env = Throw e
  ∧ quoted_entry session w = None
  ∧ nextCalls w' = S (nextCalls w)
  ∧ ∃ targets w1, getTargets env session w = (Ok targets, w1)
                  ∧ sent w' = sent w ++ fan_deliveries env session targets.
Proof.
  destruct (quoted_entry session w) as [entry|] eqn:Hq.
  { by rewrite (middleware_reply env session w entry Hq). }
  destruct (middleware_forward env session w Hq) as (targets & ls & Hget & ->).
  destruct (next env) as [r|e'] eqn:Hnext; [discriminate|].
  intros [= -> <-]. cbn [nextCalls sent].
  rewrite puts_nextCalls, puts_sent. split_and!; try done.
  by exists targets, (add_logs ls w).
Qed.

(** A witness: the continuation raises after the message was forwarded
    to the two targets that accept it. *)
Lemma middleware_raises_only_from_next_witness :
  (middleware failing_next_env demo_session blank).1 = Throw "next failed"
  ∧ length (sent (middleware failing_next_env demo_session blank).2) = 2%nat.
Proof.
  split; [reflexivity|].
  destruct (middleware_raises_only_from_next failing_next_env demo_session blank
              "next failed" (middleware failing_next_env demo_session blank).2 eq_refl)
    as (_ & _ & _ & targets & w1 & Hget & ->).
  inversion Hget; subst. reflexivity.
Defined.

(** X18. A forward sends only to resolved targets, at most once to
    each: the new sends of a forward-candidate are, target by target in
    the order of the resolved targets, at most one send per target, to
    the channel and guild of that target, through a bot whose [sid] is
    that target's platform and [selfId]. *)
Theorem forward_sends_to_targets_only env session w targets w1 :
  quoted_entry session w = None →
  getTargets env session w = (Ok targets, w1) →
  ∃ per_target : list (list Delivery.t),
    sent (middleware env session w).2 = sent w ++ concat per_target
    ∧ Forall2 (λ t ds,
                 (length ds ≤ 1)%nat
                 ∧ ∀ d, d ∈ ds →
                     Delivery.channelId d = CidString (ForwardTarget.channelId t)
                     ∧ Delivery.guildId d = ForwardTarget.guildId t
                     ∧ Bot.sid (Delivery.bot d)
                       = ForwardTarget.platform t +:+ ":" +:+ ForwardTarget.selfId t)
              targets per_target.
Proof.
  intros Hq Hget.
  exists (map (λ t, relay_deliveries env session (entry_of_target t)) targets).
  split.
  - rewrite (middleware_sent_forward env session w targets w1 Hq Hget). f_equal.
    unfold fan_deliveries. clear. induction targets as [|t ts IH]; [done|].
    simpl. by rewrite IH.
  - clear. induction targets as [|t ts IH]; simpl; constructor; [|done].
    destruct (relay_deliveries_shape env session (entry_of_target t)) as [Hlen Hshape].
    split; [done|]. intros d Hd. destruct (Hshape d Hd) as (? & ? & ?). done.
Qed.

(** A witness: of the three targets of [demo_session] the first and the
    third get one send each, the second none. *)
Lemma forward_sends_to_targets_only_witness :
  (∃ per_target : list (list Delivery.t),
     sent (middleware demo_env demo_session blank).2 = concat per_target
     ∧ length per_target = 3%nat
     ∧ Forall (λ ds, (length ds ≤ 1)%nat) per_target)
  ∧ Delivery.channelId <$> sent (middleware demo_env demo_session blank).2
    = [CidString "200"; CidString "300"].
Proof.
  split; [|reflexivity].
  destruct (forward_sends_to_targets_only demo_env demo_session blank
              [target_200; target_bad; target_300] blank eq_refl eq_refl)
    as (per_target & Hsent & Hshape).
  exists per_target. split_and!.
  - exact Hsent.
  - symmetry. exact (Forall2_length _ _ _ Hshape).
  - clear Hsent. induction Hshape as [|t ds ts dss [Hl _] _ IH]; constructor; done.
Defined.

Lemma rewrite_mentions_plain env session :
  select_at_all (Session.content session) = []
  ∨ Session.guildId session = None
  ∨ Session.guildId session = Some "" →
  (rewrite_mentions env session blank).1 = Ok (Session.content session).
Proof.
  unfold rewrite_mentions. intros [->|[->| ->]]; [done| |];
    by destruct (select_at_all _).
Qed.

(** X19. A message with no mention, or posted outside a guild, is sent
    as it is behind the author's name, and the member directory plays no
    part: the relay goes through even when the directory cannot be
    reached. *)
Theorem plain_message_sent_as_is env session entry w bot ids :
  Session.content session ≠ [] →
  select_at_all (Session.content session) = []
  ∨ Session.guildId session = None
  ∨ Session.guildId session = Some "" →
  bot_by_sid (bots env)
    (RelayEntry.platform entry +:+ ":" +:+ RelayEntry.selfId entry) = Some bot →
  sendMessage env bot (RelayEntry.channelId entry)
    (Text (Session.author_name session +:+ ": ") :: Session.content session)
    (RelayEntry.guildId entry) = Ok ids →
  sent (sendRelay env session entry w).2
  = sent w ++ [Delivery.mk bot (RelayEntry.channelId entry)
                 (Text (Session.author_name session +:+ ": ") :: Session.content session)
                 (RelayEntry.guildId entry)]
  ∧ log (sendRelay env session entry w).2 = log w.
Proof.
  intros Hc Hplain Hbot Hsend.
  rewrite (sendRelay_nonempty env session entry Hc).
  unfold try_catch. rewrite sendRelay_body_run, Hbot.
  rewrite (rewrite_mentions_plain env session Hplain).
  unfold with_author. rewrite Hsend. cbn [snd]. by rewrite puts_sent, puts_log.
Qed.

(** A witness: ["hi"] goes out although the directory fails. *)
Lemma plain_message_sent_as_is_witness :
  sent (sendRelay no_directory_env demo_session (entry_of_target target_200) blank).2
  = [Delivery.mk (Bot.mk "discord" "B1") (CidString "200") [Text "bob: "; Text "hi"] None].
Proof.
  apply (plain_message_sent_as_is no_directory_env demo_session
           (entry_of_target target_200) blank (Bot.mk "discord" "B1") ["m200"]);
    [discriminate|by left|reflexivity|reflexivity].
Defined.

Lemma transform_elem_no_mention dict :
  ∀ e, select_at e = [] → transform_elem dict e = [e].
Proof.
  fix IH 1. intros [s|type attrs children]; [done|].
  cbn [select_at transform_elem]. intros [Hty Hch]%app_eq_nil.
  destruct (decide (type = "at")); [discriminate|].
  do 2 f_equal. induction children as [|c cs IHcs]; [done|].
  apply app_eq_nil in Hch as [Hc Hcs].
  rewrite (IH c Hc). simpl. f_equal. by apply IHcs.
Qed.

(** X20. The transform touches mentions only: on content in which
    [select] finds no mention, at any depth, it is the identity, so the
    guard that skips it for such content loses nothing. *)
Theorem transform_without_mentions dict content :
  select_at_all content = [] → transform dict content = content.
Proof.
  unfold select_at_all, transform.
  induction content as [|e content IH]; [done|]. simpl.
  intros [He Hc]%app_eq_nil.
  by rewrite (transform_elem_no_mention dict e He), IH.
Qed.

(** A witness: text inside a quote element. *)
Lemma transform_without_mentions_witness :
  transform {[ "7" := "alice" ]} [Text "a"; Elem "b" [] [Text "c"; Elem "img" [("src", "x")] []]]
  = [Text "a"; Elem "b" [] [Text "c"; Elem "img" [("src", "x")] []]].
Proof. apply transform_without_mentions. reflexivity. Defined.

(** ** Correlation store, end to end *)

Lemma sendRelay_delivered env session entry w bot body ids :
  Session.content session ≠ [] →
  bot_by_sid (bots env)
    (RelayEntry.platform entry +:+ ":" +:+ RelayEntry.selfId entry) = Some bot →
  (rewrite_mentions env session blank).1 = Ok body →
  sendMessage env bot (RelayEntry.channelId entry) (with_author session body)
    (RelayEntry.guildId entry) = Ok ids →
  (sendRelay env session entry w).2
  = puts env session ids
      (add_sent (Delivery.mk bot (RelayEntry.channelId entry)
                   (with_author session body) (RelayEntry.guildId entry)) w).
Proof.
  intros Hc Hbot Hbody Hsend.
  rewrite (sendRelay_nonempty env session entry Hc).
  unfold try_catch. by rewrite sendRelay_body_run, Hbot, Hbody, Hsend.
Qed.

Lemma put_proto_get env session w :
  get "__proto__" (put env session "__proto__" w) = Some (origin session).
Proof.
  unfold get, put, own_put, proto_put, sets_proto. cbn [relayMap proto].
  rewrite (bool_decide_eq_true_2 ("__proto__" = "__proto__")) by done. cbn [andb].
  destruct (relayMap w !! "__proto__") as [e|] eqn:E.
  - rewrite bool_decide_eq_false_2 by done. by rewrite lookup_insert_eq.
  - rewrite bool_decide_eq_true_2 by done. by rewrite E.
Qed.

Lemma put_proto_keeps env session id w entry :
  id ≠ "__proto__" →
  get "__proto__" w = Some entry →
  get "__proto__" (put env session id w) = Some entry.
Proof.
  intros Hid. unfold get, put, own_put, proto_put, sets_proto. cbn [relayMap proto].
  rewrite (bool_decide_eq_false_2 (id = "__proto__")) by done. cbn [andb].
  by rewrite lookup_insert_ne.
Qed.

Lemma puts_proto_get env session ids w :
  "__proto__" ∈ ids → get "__proto__" (puts env session ids w) = Some (origin session).
Proof.
  induction ids as [|id ids IH] using rev_ind; [by intros ?%elem_of_nil|].
  rewrite puts_app. simpl. intros Hin.
  destruct (decide (id = "__proto__")) as [->|Hne]; [apply put_proto_get|].
  apply put_proto_keeps; [done|]. apply IH.
  apply elem_of_app in Hin as [Hin|Hin%list_elem_of_singleton]; [done|congruence].
Qed.

(** Every registered id reads back as the origin of the session. *)
Lemma puts_get env session ids w id :
  id ∈ ids → get id (puts env session ids w) = Some (origin session).
Proof.
  intros Hin. destruct (decide (id = "__proto__")) as [->|Hne].
  - by apply puts_proto_get.
  - apply get_own. by rewrite puts_lookup, decide_True.
Qed.

(** X21. Every id a send returns reads back from the correlation map
    as the normalized source channel of the message, and has a timer one
    timer delay ahead (the timeout as the runtime's timer takes it); a
    key the send did not return keeps the own property, or the absence,
    it had, and reads back as before when it is not a reserved key. *)
Theorem sent_ids_are_registered env session entry w bot body ids :
  Session.content session ≠ [] →
  bot_by_sid (bots env)
    (RelayEntry.platform entry +:+ ":" +:+ RelayEntry.selfId entry) = Some bot →
  (rewrite_mentions env session blank).1 = Ok body →
  sendMessage env bot (RelayEntry.channelId entry) (with_author session body)
    (RelayEntry.guildId entry) = Ok ids →
  let after := (sendRelay env session entry w).2 in
  (∀ id, id ∈ ids →
         get id after
         = Some (RelayEntry.mk (Session.platform session) (getChannelId session)
                               (Session.selfId session) (Session.guildId session))
         ∧ ((now w + timer_delay (ttl env))%N, id) ∈ timers after)
  ∧ (∀ k, k ∉ ids →
          relayMap after !! k = relayMap w !! k
          ∧ (k ∉ reserved_keys → get k after = get k w))
  ∧ length (timers after) = (length (timers w) + length ids)%nat.
Proof.
  intros Hc Hbot Hbody Hsend. simpl.
  rewrite (sendRelay_delivered env session entry w bot body ids Hc Hbot Hbody Hsend).
  split_and!.
  - intros id Hid. split; [by apply puts_get|].
    rewrite puts_timers. apply elem_of_app; right. simpl.
    apply list_elem_of_fmap. by exists id.
  - intros k Hk.
    assert (Hown : relayMap (puts env session ids (add_sent
                     (Delivery.mk bot (RelayEntry.channelId entry)
                        (with_author session body) (RelayEntry.guildId entry)) w)) !! k
                   = relayMap w !! k) by (by rewrite puts_keeps).
    split; [done|]. intros Hres. by rewrite !get_ordinary, Hown.
  - rewrite puts_timers, length_app, length_map. done.
Qed.

(** A witness: the relay of [demo_session] to [discord:200] registers
    [m200] for [onebot:100]. *)
Lemma sent_ids_are_registered_witness :
  get "m200" (sendRelay demo_env demo_session (entry_of_target target_200) blank).2
  = Some (RelayEntry.mk "onebot" (CidString "100") "B0" (Some "g1")).
Proof.
  apply (sent_ids_are_registered demo_env demo_session (entry_of_target target_200) blank
           (Bot.mk "discord" "B1") [Text "hi"] ["m200"]);
    [discriminate|reflexivity|reflexivity|reflexivity|].
  apply list_elem_of_here.
Defined.

Lemma puts_live env session ids w id :
  id ∉ reserved_keys →
  id ∈ ids → (∀ d, (d, id) ∉ timers w) →
  entry_live id (origin session) (now w + timer_delay (ttl env))%N
    (puts env session ids w).
Proof.
  intros Hres Hid Hfresh. unfold entry_live. split_and!.
  - by apply puts_get.
  - rewrite puts_timers. apply elem_of_app; right.
    apply list_elem_of_fmap. by exists id.
  - intros d. rewrite puts_timers.
    intros [Hd|Hd]%elem_of_app; [by apply Hfresh in Hd|].
    apply list_elem_of_fmap in Hd as (id' & [= -> _] & _). done.
  - rewrite puts_now. pose proof (timer_delay_bounds _ (ttl_positive env)). lia.
Qed.

(** X22. The two-way relay, end to end. After a relay whose send
    returned the id [id] (not empty, not a reserved key, no timer for it
    pending before), a message that quotes [id] less than one timer
    delay later is treated as a reply: it is relayed to the source
    channel of the first message, through the bot that received it, and
    to nothing else; from one timer delay on, the same message is a
    forward-candidate. The timer delay is the timeout as the runtime's
    timer takes it: 1 ms for a timeout of [2^31] ms or more. *)
Theorem reply_routes_back env session entry w bot body ids id reply dt :
  Session.content session ≠ [] →
  bot_by_sid (bots env)
    (RelayEntry.platform entry +:+ ":" +:+ RelayEntry.selfId entry) = Some bot →
  (rewrite_mentions env session blank).1 = Ok body →
  sendMessage env bot (RelayEntry.channelId entry) (with_author session body)
    (RelayEntry.guildId entry) = Ok ids →
  id ∈ ids → id ≠ "" → id ∉ reserved_keys →
  (∀ d, (d, id) ∉ timers w) →
  Session.quote_id reply = Some id →
  let later := elapse dt (sendRelay env session entry w).2 in
  ((dt < timer_delay (ttl env))%N →
   middleware env reply later
   = (Ok Undefined, (sendRelay env reply (origin session) later).2)
   ∧ ∃ ds, sent (middleware env reply later).2 = sent later ++ ds
           ∧ (length ds ≤ 1)%nat
           ∧ ∀ d, d ∈ ds →
               Delivery.channelId d = getChannelId session
               ∧ Bot.sid (Delivery.bot d)
                 = Session.platform session +:+ ":" +:+ Session.selfId session
               ∧ Delivery.guildId d = Session.guildId session)
  ∧ ((timer_delay (ttl env) ≤ dt)%N → quoted_entry reply later = None)
  ∧ ((ttl env ≤ 2147483647)%N → timer_delay (ttl env) = ttl env)
  ∧ ((2147483647 < ttl env)%N → timer_delay (ttl env) = 1%N).
Proof.
  intros Hc Hbot Hbody Hsend Hid Hne Hres Hfresh Hquote. simpl.
  rewrite (sendRelay_delivered env session entry w bot body ids Hc Hbot Hbody Hsend).
  set (d0 := Delivery.mk _ _ _ _).
  pose proof (puts_live env session ids (add_sent d0 w) id Hres Hid Hfresh) as Hlive.
  cbn [now add_sent] in Hlive.
  pose proof (entry_step env id (origin session) (now w + timer_delay (ttl env))%N
                (puts env session ids (add_sent d0 w)) (Elapse dt) Hres (λ H, H)
                (or_introl Hlive)) as Hstep.
  cbn [store_step] in Hstep.
  assert (Hnow : now (elapse dt (puts env session ids (add_sent d0 w))) = (now w + dt)%N).
  { unfold elapse. cbn [now]. by rewrite puts_now. }
  split_and!.
  - intros Hdt.
    assert (Hq : quoted_entry reply (elapse dt (puts env session ids (add_sent d0 w)))
                 = Some (origin session)).
    { destruct Hstep as [(Hget & _)|(_ & _ & Hexp)]; [|rewrite Hnow in Hexp; lia].
      by apply quoted_entry_hit with id. }
    split; [by apply middleware_reply|].
    rewrite (middleware_reply env reply _ _ Hq), sendRelay_effect. cbn [snd].
    exists (relay_deliveries env reply (origin session)).
    rewrite puts_sent. split; [done|].
    destruct (relay_deliveries_shape env reply (origin session)) as [Hlen Hshape].
    split; [done|]. intros d Hd. destruct (Hshape d Hd) as (? & ? & ?). done.
  - intros Hdt. apply quoted_entry_miss. right; right. exists id. split; [done|].
    destruct Hstep as [(_ & _ & _ & Hlt)|(Hget & _)]; [rewrite Hnow in Hlt; lia|done].
  - intros H. apply timer_delay_in_range; [apply ttl_positive|done].
  - apply timer_delay_clamped.
Qed.

Lemma m200_not_reserved : "m200" ∉ reserved_keys.
Proof.
  unfold reserved_keys, Object_prototype_keys. rewrite !not_elem_of_cons.
  split_and!; try discriminate. apply not_elem_of_nil.
Qed.

(** A witness: the reply to [m200] after 500 ms goes to [onebot:100]
    through [B0]; with a timeout of [2^31] ms the same reply, 2 ms after
    the send, is a forward-candidate. *)
Lemma reply_routes_back_witness :
  let later := elapse 500 (sendRelay demo_env demo_session (entry_of_target target_200)
                             blank).2 in
  let lost := elapse 2 (sendRelay long_timeout_env demo_session
                          (entry_of_target target_200) blank).2 in
  middleware demo_env (demo_reply "m200") later
  = (Ok Undefined, (sendRelay demo_env (demo_reply "m200") (origin demo_session) later).2)
  ∧ quoted_entry (demo_reply "m200") lost = None.
Proof.
  assert (Hfresh : ∀ d : N, (d, "m200") ∉ timers blank).
  { intros d H. by apply elem_of_nil in H. }
  split.
  - apply (reply_routes_back demo_env demo_session (entry_of_target target_200) blank
             (Bot.mk "discord" "B1") [Text "hi"] ["m200"] "m200" (demo_reply "m200") 500
             ltac:(discriminate) eq_refl eq_refl eq_refl (list_elem_of_here _ _)
             ltac:(discriminate) m200_not_reserved Hfresh eq_refl).
    reflexivity.
  - apply (reply_routes_back long_timeout_env demo_session (entry_of_target target_200)
             blank (Bot.mk "discord" "B1") [Text "hi"] ["m200"] "m200" (demo_reply "m200") 2
             ltac:(discriminate) eq_refl eq_refl eq_refl (list_elem_of_here _ _)
             ltac:(discriminate) m200_not_reserved Hfresh eq_refl).
    by vm_compute.
Defined.

(** The store part of a world after the middleware is that of the world
    with some ids registered for the session. *)
Lemma middleware_store env session w :
  ∃ ids,
    relayMap (middleware env session w).2 = relayMap (puts env session ids w)
    ∧ timers (middleware env session w).2 = timers (puts env session ids w)
    ∧ now (middleware env session w).2 = now w.
Proof.
  destruct (quoted_entry session w) as [entry|] eqn:Hq.
  - rewrite (middleware_reply env session w entry Hq), sendRelay_effect. cbn [snd].
    exists (relay_ids env session entry).
    by rewrite !puts_relayMap, !puts_timers, !puts_now.
  - destruct (middleware_forward env session w Hq) as (targets & ls & _ & ->).
    exists (fan_ids env session targets). cbn [snd relayMap timers now].
    by rewrite !puts_relayMap, !puts_timers, !puts_now.
Qed.

Lemma store_inv_ext env w1 w2 :
  relayMap w1 = relayMap w2 → timers w1 = timers w2 → now w1 = now w2 →
  timers_bounded env w2 ∧ keys_timed w2 → timers_bounded env w1 ∧ keys_timed w1.
Proof.
  unfold timers_bounded, keys_timed. intros -> -> ->. done.
Qed.

Lemma store_inv_puts env session ids w :
  timers_bounded env w ∧ keys_timed w →
  timers_bounded env (puts env session ids w) ∧ keys_timed (puts env session ids w).
Proof.
  revert w; induction ids as [|id ids IH]; intros w [Hb Hk]; [done|].
  simpl. apply IH. split.
  - intros d k [Hd|[-> ->]]%put_timers.
    + apply Hb in Hd. simpl. done.
    + pose proof (timer_delay_bounds _ (ttl_positive env)). simpl. lia.
  - intros k Hsome. unfold put in Hsome. cbn [relayMap] in Hsome.
    apply own_put_is_Some in Hsome as [->|Hsome].
    + exists (now w + timer_delay (ttl env))%N. apply put_timers. by right.
    + apply Hk in Hsome as (d & Hd). exists d. apply put_timers. by left.
Qed.

Lemma store_inv_elapse env dt w :
  timers_bounded env w ∧ keys_timed w →
  timers_bounded env (elapse dt w) ∧ keys_timed (elapse dt w).
Proof.
  intros [Hb Hk]. split.
  - intros d k [Hd Hlt]%elapse_timers. apply Hb in Hd. simpl. lia.
  - intros k Hsome.
    destruct (decide (k ∈ (filter (λ tm, due (now w + dt) tm = true) (timers w)).*2))
      as [Hdue|Hnot].
    + rewrite elapse_own, decide_True in Hsome by done. by destruct Hsome.
    + rewrite elapse_own, decide_False in Hsome by done.
      apply Hk in Hsome as (d & Hd). exists d. apply elapse_timers. split; [done|].
      destruct (decide (now w + dt < d)%N) as [|Hge]; [done|].
      exfalso. apply Hnot. apply list_elem_of_fmap. exists (d, k). split; [done|].
      apply list_elem_of_filter. split; [|done]. unfold due. simpl.
      apply N.leb_le. lia.
Qed.

Lemma store_inv_run env steps w :
  timers_bounded env w ∧ keys_timed w →
  timers_bounded env (run_plugin env steps w) ∧ keys_timed (run_plugin env steps w).
Proof.
  unfold run_plugin. revert w; induction steps as [|st steps IH]; intros w Hw; [done|].
  simpl. apply IH. destruct st as [session|dt]; simpl.
  - destruct (middleware_store env session w) as (ids & Hm & Ht & Hn).
    apply (store_inv_ext env _ (puts env session ids w)); [done..| |].
    + by rewrite puts_now.
    + by apply store_inv_puts.
  - by apply store_inv_elapse.
Qed.

(** X23. The correlation store drains. Whatever messages the plugin
    has handled and whatever time has passed since it started, every
    entry of the map has a pending timer, every pending timer is due
    within one timeout, and once a timeout passes with no message the
    map and the timer list are empty. *)
Theorem correlation_store_drains env steps :
  let w := run_plugin env steps blank in
  timers_bounded env w
  ∧ keys_timed w
  ∧ relayMap (elapse (ttl env) w) = ∅
  ∧ timers (elapse (ttl env) w) = [].
Proof.
  simpl.
  assert (Hinv : timers_bounded env (run_plugin env steps blank)
                 ∧ keys_timed (run_plugin env steps blank)).
  { apply store_inv_run. split.
    - intros d k H. by apply elem_of_nil in H.
    - intros k [e H]. simpl in H. by rewrite lookup_empty in H. }
  destruct Hinv as [Hb Hk]. set (w := run_plugin env steps blank) in *.
  split_and!; [done..| |].
  - apply map_eq. intros k. rewrite lookup_empty.
    destruct (relayMap w !! k) as [e|] eqn:He.
    + destruct (Hk k) as (d & Hd); [by exists e|].
      apply (elapse_own_due (ttl env) w k d Hd). by apply Hb in Hd as [_ ?].
    + by apply elapse_own_None.
  - destruct (timers (elapse (ttl env) w)) as [|[d k] rest] eqn:Ht; [done|].
    assert (Hin : (d, k) ∈ timers (elapse (ttl env) w)) by (rewrite Ht; left).
    apply elapse_timers in Hin as [Hin Hlt]. apply Hb in Hin. lia.
Qed.
